(** * vol_wrapper.go: bounded dispatcher, run registry and status monitor

    A shallow embedding of [src/vol_wrapper.go].  Go strings are byte
    strings ([string]); the [sync.Map] [runningModules] is a [gmap]; the
    buffered channel [sem] and the [sync.WaitGroup] are counters; every
    goroutine is a record with a program counter, and the scheduler is the
    choice of the next [label].  What the operating system decides (whether
    a file can be created, how the external process ends, what the scanner
    reads, when a key is pressed, what [exec.LookPath] and [flag.Parse]
    answer) is carried by the labels, by [Config], by [Env] and by
    [Invocation]. *)

From Stdlib Require Import Ascii.
From stdpp Require Import gmap strings list fin_maps pretty.

(** ** Go values *)

(** [time.Time] on the monotonic clock, in clock ticks. *)
Definition Time := nat.

(** A Go [error] value: its message. *)
Definition error := string.

(** ** [strings] and [fmt] as [runModule] uses them *)

Fixpoint str_prefix (p s : string) : bool :=
  match p, s with
  | EmptyString, _ => true
  | String a p', String b s' => if decide (a = b) then str_prefix p' s' else false
  | String _ _, EmptyString => false
  end.

(** [last_index_from s substr i]: the byte index, counted from offset [i]
    of the first byte of [s], of the last occurrence of [substr] in [s];
    [-1] when there is none. *)
Fixpoint last_index_from (s substr : string) (i : Z) : Z :=
  match s with
  | EmptyString => if str_prefix substr EmptyString then i else (-1)%Z
  | String _ s' =>
      let r := last_index_from s' substr (i + 1) in
      if (0 <=? r)%Z then r
      else if str_prefix substr s then i else (-1)%Z
  end.

(** [strings.LastIndex(s, substr)]. *)
Definition LastIndex (s substr : string) : Z := last_index_from s substr 0.

(** The slice expression [s[n:]] for [0 <= n <= len(s)]. *)
Fixpoint slice_from (n : nat) (s : string) : string :=
  match n, s with
  | O, _ => s
  | S n', String _ s' => slice_from n' s'
  | S _, EmptyString => EmptyString
  end.

(** [string(os.PathSeparator)] and the verb [%c] applied to it both give
    the one-byte string of the separator. *)
Definition sep_string (PathSeparator : ascii) : string :=
  String PathSeparator EmptyString.

(** Line 26: [memoryImage[strings.LastIndex(memoryImage, sep)+1:]]. *)
Definition memoryImageName (PathSeparator : ascii) (memoryImage : string) : string :=
  slice_from (Z.to_nat (LastIndex memoryImage (sep_string PathSeparator) + 1)) memoryImage.

(** Line 27: [fmt.Sprintf("%s%c%s_%s.csv", outputDir, os.PathSeparator,
    memoryImageName, module)]. *)
Definition outputFile (PathSeparator : ascii) (outputDir memoryImage module : string) : string :=
  outputDir +:+ String PathSeparator
    (memoryImageName PathSeparator memoryImage +:+ "_" +:+ module +:+ ".csv").

(** Membership of a byte in a string. *)
Fixpoint str_mem (a : ascii) (s : string) : bool :=
  match s with
  | EmptyString => false
  | String b s' => if decide (a = b) then true else str_mem a s'
  end.

(** [is_basename sep image base]: [base] is the portion of [image] after
    its last separator (all of [image] when it has none). *)
Definition is_basename (sep : ascii) (image base : string) : Prop :=
  str_mem sep base = false ∧
  (image = base ∨ ∃ pre, image = pre +:+ String sep base).

(** ** The concurrency limit (lines 130-133) *)

(** Go's [int] on a 64-bit platform. *)
Definition int_min : Z := - 2 ^ 63.
Definition int_max : Z := 2 ^ 63 - 1.
Definition wrap_int (z : Z) : Z := ((z + 2 ^ 63) mod 2 ^ 64 - 2 ^ 63)%Z.

Definition numGoroutines (numCPU : Z) : Z :=
  let n := wrap_int (numCPU - 1) in
  if (n <? 1)%Z then 1%Z else n.

(** The loop of lines 115-122 over the successive values of
    [scanner.Text()]: [modules = append(modules, module)] for every
    module that is not the empty string. *)
Definition scan_step (modules : list string) (module : string) : list string :=
  if decide (module = EmptyString) then modules else modules ++ [module].

Definition scan_loop (lines : list string) : list string :=
  foldl scan_step [] lines.

(** ** [os/exec] *)

(** [exec.Cmd]: [Stdout] and [Stderr] hold the path of the [*os.File] they
    are connected to; [None] is Go's [nil], which [Run] connects to the
    null device.  [Err] is the error of the path lookup, which [Run]
    returns without starting a process. *)
Record Cmd := {
  Path : string;
  Args : list string;
  Stdout : option string;
  Stderr : option string;
  Err : option error
}.

(** [filepath.Base(name) == name]: a name that is not empty and holds no
    separator, or the separator alone. *)
Definition is_bare (PathSeparator : ascii) (name : string) : bool :=
  bool_decide (name ≠ EmptyString) &&
  (negb (str_mem PathSeparator name) ||
   bool_decide (name = sep_string PathSeparator)).

(** [exec.Command(name, arg...)]: [Args] holds the command name followed by
    the arguments.  A bare name is looked up with [exec.LookPath], whose
    answer [lp, err] is given by [LookPath]: [Path] is [lp] unless [lp] is
    empty, and [Err] is [err]. *)
Definition exec_Command (PathSeparator : ascii)
    (LookPath : string → string * option error)
    (name : string) (arg : list string) : Cmd :=
  let cmd := {| Path := name; Args := name :: arg;
                Stdout := None; Stderr := None; Err := None |} in
  if is_bare PathSeparator name then
    let (lp, err) := LookPath name in
    {| Path := if decide (lp = EmptyString) then name else lp;
       Args := Args cmd; Stdout := None; Stderr := None; Err := err |}
  else cmd.

(** How [cmd.Run()] ends: the process could not be started, it exited with
    a status, or a signal ended it.  [out] is what the process wrote to
    its standard output. *)
Inductive proc_result :=
| LaunchFailed (err : error)
| Exited (code : Z) (out : string)
| Signaled (signal : string) (out : string).

Global Instance proc_result_eq_dec : EqDecision proc_result.
Proof. solve_decision. Defined.

(** The [error] returned by [cmd.Run()]: [nil] only for exit status 0. *)
Definition Run_error (r : proc_result) : option error :=
  match r with
  | LaunchFailed err => Some err
  | Exited code _ =>
      if decide (code = 0%Z) then None else Some ("exit status " +:+ pretty code)
  | Signaled signal _ => Some ("signal: " +:+ signal)
  end.

(** What the process wrote. *)
Definition written (r : proc_result) : option string :=
  match r with
  | LaunchFailed _ => None
  | Exited _ out | Signaled _ out => Some out
  end.

(** A command whose lookup failed is never started: [Run] returns the
    error of the lookup. *)
Definition launchable (cmd : Cmd) (r : proc_result) : bool :=
  match Err cmd with
  | Some err => bool_decide (r = LaunchFailed err)
  | None => true
  end.

(** The bytes [new] written from offset 0 over a file that holds [old]:
    what lies beyond the last byte written stays. *)
Definition overlay (new old : string) : string :=
  new +:+ slice_from (String.length new) old.

Arguments launchable : simpl never.
Arguments overlay : simpl never.

(** ** Console output *)

Inductive event :=
| FlagsRequired
| MkdirError (err : error)
| OpenError (err : error)
| ScanError (err : error)
| UsingGoroutines (n : nat)
| CreateError (module : string) (err : error)
| RunningModule (module : string)
| RunError (module : string) (err : error)
| Completed (module : string) (duration : nat)
| StatusHeader
| StatusLine (module : string) (runtime : nat)
| StatusFooter
| AllCompleted (totalDuration : nat)
| WaitGroupPanic.

(** ** Goroutines *)

(** Where a goroutine started at lines 151-154 stands: the next statement
    it executes. *)
Inductive gpc :=
| AtStore      (* lines 22-24: time.Now, runningModules.Store *)
| AtCreate     (* line 30: os.Create *)
| AtPrint      (* line 40: "Running module" *)
| AtRun        (* line 41: cmd.Run, blocked until the process ends *)
| AtClose      (* deferred outfile.Close *)
| AtDelete     (* deferred runningModules.Delete *)
| AtDone       (* deferred wg.Done *)
| AtRelease    (* line 153: <-sem *)
| Finished.

Global Instance gpc_eq_dec : EqDecision gpc.
Proof. solve_decision. Defined.

Record goroutine := {
  g_module : string;
  g_pc : gpc;
  g_start : option Time
}.

Definition at_pc (p : gpc) (g : goroutine) : goroutine :=
  {| g_module := g_module g; g_pc := p; g_start := g_start g |}.

(** Where [main] stands from line 148 on. *)
Inductive mpc :=
| MRange                 (* line 148: next iteration, or line 157 *)
| MAdd (module : string) (* line 150: wg.Add(1) *)
| MGo (module : string)  (* line 151: go func(module) *)
| MReport                (* line 158: wg.Wait has returned *)
| MReturn                (* line 160: the total has been printed, main ends *)
| MExit.

(** The pass of [runningModules.Range] the monitor is in: the keys it has
    settled so far and the pairs it has handed to the callback. *)
Record monitor := {
  ranging : bool;
  visited : list string;
  seen : list (string * Time)
}.

Record Config := {
  PathSeparator : ascii;
  volatilityPath : string;
  memoryImage : string;
  outputDir : string;
  capacity : nat;           (* numGoroutines, the capacity of sem *)
  modules : list string;
  fs0 : gmap string string; (* the files present when the batch starts *)
  LookPath : string → string * option error
    (* exec.LookPath, which answers the same throughout the batch *)
}.

Record state := {
  registry : gmap string Time;  (* runningModules *)
  sem : nat;                    (* len(sem) *)
  wg : nat;                     (* the WaitGroup counter *)
  pending : list string;        (* what is left of range modules *)
  main_pc : mpc;
  pool : list goroutine;        (* the goroutines, in the order of their go statements *)
  files : gmap string string;
  console : list event;
  procs : list (Cmd * proc_result);  (* the commands run so far *)
  now : Time;
  mon : monitor;
  exited : option Z             (* the exit status once the process has ended *)
}.

(** Field updates. *)
Definition set_registry (r : gmap string Time) (s : state) : state :=
  {| registry := r; sem := sem s; wg := wg s; pending := pending s;
     main_pc := main_pc s; pool := pool s; files := files s;
     console := console s; procs := procs s; now := now s; mon := mon s;
     exited := exited s |}.
Definition set_sem (n : nat) (s : state) : state :=
  {| registry := registry s; sem := n; wg := wg s; pending := pending s;
     main_pc := main_pc s; pool := pool s; files := files s;
     console := console s; procs := procs s; now := now s; mon := mon s;
     exited := exited s |}.
Definition set_wg (n : nat) (s : state) : state :=
  {| registry := registry s; sem := sem s; wg := n; pending := pending s;
     main_pc := main_pc s; pool := pool s; files := files s;
     console := console s; procs := procs s; now := now s; mon := mon s;
     exited := exited s |}.
Definition set_pending (l : list string) (s : state) : state :=
  {| registry := registry s; sem := sem s; wg := wg s; pending := l;
     main_pc := main_pc s; pool := pool s; files := files s;
     console := console s; procs := procs s; now := now s; mon := mon s;
     exited := exited s |}.
Definition set_main_pc (p : mpc) (s : state) : state :=
  {| registry := registry s; sem := sem s; wg := wg s; pending := pending s;
     main_pc := p; pool := pool s; files := files s;
     console := console s; procs := procs s; now := now s; mon := mon s;
     exited := exited s |}.
Definition set_pool (l : list goroutine) (s : state) : state :=
  {| registry := registry s; sem := sem s; wg := wg s; pending := pending s;
     main_pc := main_pc s; pool := l; files := files s;
     console := console s; procs := procs s; now := now s; mon := mon s;
     exited := exited s |}.
Definition set_files (f : gmap string string) (s : state) : state :=
  {| registry := registry s; sem := sem s; wg := wg s; pending := pending s;
     main_pc := main_pc s; pool := pool s; files := f;
     console := console s; procs := procs s; now := now s; mon := mon s;
     exited := exited s |}.
Definition print (e : event) (s : state) : state :=
  {| registry := registry s; sem := sem s; wg := wg s; pending := pending s;
     main_pc := main_pc s; pool := pool s; files := files s;
     console := console s ++ [e]; procs := procs s; now := now s; mon := mon s;
     exited := exited s |}.
Definition log_proc (c : Cmd) (r : proc_result) (s : state) : state :=
  {| registry := registry s; sem := sem s; wg := wg s; pending := pending s;
     main_pc := main_pc s; pool := pool s; files := files s;
     console := console s; procs := procs s ++ [(c, r)]; now := now s; mon := mon s;
     exited := exited s |}.
Definition set_now (t : Time) (s : state) : state :=
  {| registry := registry s; sem := sem s; wg := wg s; pending := pending s;
     main_pc := main_pc s; pool := pool s; files := files s;
     console := console s; procs := procs s; now := t; mon := mon s;
     exited := exited s |}.
Definition set_mon (m : monitor) (s : state) : state :=
  {| registry := registry s; sem := sem s; wg := wg s; pending := pending s;
     main_pc := main_pc s; pool := pool s; files := files s;
     console := console s; procs := procs s; now := now s; mon := m;
     exited := exited s |}.
Definition set_exited (code : Z) (s : state) : state :=
  {| registry := registry s; sem := sem s; wg := wg s; pending := pending s;
     main_pc := main_pc s; pool := pool s; files := files s;
     console := console s; procs := procs s; now := now s; mon := mon s;
     exited := Some code |}.

(** The goroutine [i] when it stands at [p]. *)
Definition goroutine_at (p : gpc) (i : nat) (s : state) : option goroutine :=
  match pool s !! i with
  | Some g => if decide (g_pc g = p) then Some g else None
  | None => None
  end.

(** Goroutine [i] moves on to [p]. *)
Definition goto (i : nat) (g : goroutine) (p : gpc) (s : state) : state :=
  set_pool (<[i := at_pc p g]> (pool s)) s.

(** ** [runModule] *)

Section RunModule.
Context (c : Config).

Definition job_outputFile (module : string) : string :=
  outputFile (PathSeparator c) (outputDir c) (memoryImage c) module.

(** Lines 29, 37 and 38: the command as [cmd.Run] receives it. *)
Definition job_cmd (module : string) : Cmd :=
  let cmd := exec_Command (PathSeparator c) (LookPath c) (volatilityPath c)
               ["-f"; memoryImage c; "-r"; "csv"; module] in
  {| Path := Path cmd; Args := Args cmd;
     Stdout := Some (job_outputFile module); Stderr := None; Err := Err cmd |}.

(** Lines 22-24: [start := time.Now()], [runningModules.Store(module, start)],
    and the deferred [Delete] is scheduled. *)
Definition store_step (i : nat) (s : state) : option state :=
  match goroutine_at AtStore i s with
  | Some g =>
      let g' := {| g_module := g_module g; g_pc := AtCreate;
                   g_start := Some (now s) |} in
      Some (set_registry (<[g_module g := now s]> (registry s))
              (set_pool (<[i := g']> (pool s)) s))
  | None => None
  end.

(** Lines 30-35: [os.Create(outputFile)] truncates or creates the file;
    on an error the message is printed and the function returns, which
    runs the deferred [Delete] and [wg.Done]. *)
Definition create_step (i : nat) (r : option error) (s : state) : option state :=
  match goroutine_at AtCreate i s with
  | Some g =>
      match r with
      | Some err => Some (print (CreateError (g_module g) err) (goto i g AtDelete s))
      | None =>
          Some (set_files (<[job_outputFile (g_module g) := EmptyString]> (files s))
                  (goto i g AtPrint s))
      end
  | None => None
  end.

(** Line 40. *)
Definition print_step (i : nat) (s : state) : option state :=
  match goroutine_at AtPrint i s with
  | Some g => Some (print (RunningModule (g_module g)) (goto i g AtRun s))
  | None => None
  end.

(** Lines 41-46: [cmd.Run()] returns.  A process that was started has
    written its standard output through the descriptor that line 30
    opened, from offset 0 on, over what the file holds: every job opens
    the file anew, so that two jobs of one name write to the same file
    through two descriptors.  The writes are taken to reach the file when
    [cmd.Run] returns, which is exact as long as no other process writes
    to the file, as is the case when the job names are distinct. *)
Definition run_step (i : nat) (r : proc_result) (s : state) : option state :=
  match goroutine_at AtRun i s with
  | Some g =>
      let module := g_module g in
      if launchable (job_cmd module) r then
        let s1 := log_proc (job_cmd module) r (goto i g AtClose s) in
        let s2 := match written r with
                  | Some out =>
                      let old := default EmptyString (files s1 !! job_outputFile module) in
                      set_files (<[job_outputFile module := overlay out old]> (files s1)) s1
                  | None => s1
                  end in
        match Run_error r with
        | Some err => Some (print (RunError module err) s2)
        | None =>
            let start := default 0 (g_start g) in
            Some (print (Completed module (now s - start)) s2)
        end
      else None
  | None => None
  end.

(** The deferred calls, last scheduled first. *)
Definition close_step (i : nat) (s : state) : option state :=
  match goroutine_at AtClose i s with
  | Some g => Some (goto i g AtDelete s)
  | None => None
  end.

Definition delete_step (i : nat) (s : state) : option state :=
  match goroutine_at AtDelete i s with
  | Some g => Some (set_registry (delete (g_module g) (registry s)) (goto i g AtDone s))
  | None => None
  end.

Definition done_step (i : nat) (s : state) : option state :=
  match goroutine_at AtDone i s with
  | Some g =>
      match wg s with
      | S n => Some (set_wg n (goto i g AtRelease s))
      | O => Some (set_exited 2 (print WaitGroupPanic s))  (* negative counter *)
      end
  | None => None
  end.

(** Line 153: [<-sem], after [runModule] has returned. *)
Definition release_step (i : nat) (s : state) : option state :=
  match goroutine_at AtRelease i s with
  | Some g =>
      match sem s with
      | S n => Some (set_sem n (goto i g Finished s))
      | O => None
      end
  | None => None
  end.
End RunModule.

(** ** [monitorKeyPress] *)

(** Line 52 returns; without an error the header is printed and a pass of
    [runningModules.Range] begins. *)
Definition read_step (err : option error) (s : state) : option state :=
  if ranging (mon s) then None
  else match err with
       | Some _ => Some s
       | None =>
           Some (set_mon {| ranging := true; visited := []; seen := [] |}
                   (print StatusHeader s))
       end.

(** [Range] settles one more key: it visits no key twice, and what it
    reports for a key is the mapping of that key at the moment it looks
    at it.  A key that is present is handed to the callback of lines
    55-61. *)
Definition visit_step (k : string) (s : state) : option state :=
  if ranging (mon s) then
    if decide (k ∈ visited (mon s)) then None
    else match registry s !! k with
         | Some start =>
             Some (set_mon {| ranging := true;
                              visited := visited (mon s) ++ [k];
                              seen := seen (mon s) ++ [(k, start)] |}
                     (print (StatusLine k (now s - start)) s))
         | None =>
             Some (set_mon {| ranging := true;
                              visited := visited (mon s) ++ [k];
                              seen := seen (mon s) |} s)
         end
  else None.

(** [Range] returns once no key of the map is left to visit; line 62. *)
Definition end_step (s : state) : option state :=
  if ranging (mon s) then
    if decide (map_Forall (λ k _, k ∈ visited (mon s)) (registry s)) then
      Some (set_mon {| ranging := false; visited := visited (mon s);
                       seen := seen (mon s) |}
              (print StatusFooter s))
    else None
  else None.

(** ** [main], lines 144-159 *)

Section Dispatcher.
Context (c : Config).

(** Lines 148-149: the next module of the range, and [sem <- struct{}{}],
    which blocks while the channel is full. *)
Definition acquire_step (s : state) : option state :=
  match main_pc s, pending s with
  | MRange, module :: rest =>
      if decide (sem s < capacity c) then
        Some (set_main_pc (MAdd module) (set_pending rest (set_sem (S (sem s)) s)))
      else None
  | _, _ => None
  end.

(** Line 150. *)
Definition add_step (s : state) : option state :=
  match main_pc s with
  | MAdd module => Some (set_main_pc (MGo module) (set_wg (S (wg s)) s))
  | _ => None
  end.

(** Line 151. *)
Definition go_step (s : state) : option state :=
  match main_pc s with
  | MGo module =>
      Some (set_main_pc MRange
              (set_pool (pool s ++ [{| g_module := module; g_pc := AtStore;
                                       g_start := None |}]) s))
  | _ => None
  end.

(** Line 157: [wg.Wait()] returns when the counter is zero. *)
Definition wait_step (s : state) : option state :=
  match main_pc s, pending s with
  | MRange, [] => if decide (wg s = 0) then Some (set_main_pc MReport s) else None
  | _, _ => None
  end.

(** Lines 158-159: the total (the clock starts at line 138). *)
Definition report_step (s : state) : option state :=
  match main_pc s with
  | MReport => Some (set_main_pc MReturn (print (AllCompleted (now s)) s))
  | _ => None
  end.

(** Line 160, the end of [main]: no statement is left, [main] returns and
    the Go runtime ends the process with status 0, whatever the monitor
    is doing. *)
Definition runtime_exit_step (s : state) : option state :=
  match main_pc s with
  | MReturn => Some (set_exited 0 (set_main_pc MExit s))
  | _ => None
  end.

(** ** The interleavings *)

Inductive label :=
| MainAcquire | MainAdd | MainGo | MainWait | MainReport | RuntimeExit
| GStore (i : nat)
| GCreate (i : nat) (r : option error)
| GPrint (i : nat)
| GRun (i : nat) (r : proc_result)
| GClose (i : nat)
| GDelete (i : nat)
| GDone (i : nat)
| GRelease (i : nat)
| MonRead (err : option error)
| MonVisit (k : string)
| MonEnd
| Tick.

Definition exec (l : label) (s : state) : option state :=
  match exited s with
  | Some _ => None
  | None =>
      match l with
      | MainAcquire => acquire_step s
      | MainAdd => add_step s
      | MainGo => go_step s
      | MainWait => wait_step s
      | MainReport => report_step s
      | RuntimeExit => runtime_exit_step s
      | GStore i => store_step i s
      | GCreate i r => create_step c i r s
      | GPrint i => print_step i s
      | GRun i r => run_step c i r s
      | GClose i => close_step i s
      | GDelete i => delete_step i s
      | GDone i => done_step i s
      | GRelease i => release_step i s
      | MonRead err => read_step err s
      | MonVisit k => visit_step k s
      | MonEnd => end_step s
      | Tick => Some (set_now (S (now s)) s)
      end
  end.

Fixpoint run (ls : list label) (s : state) : option state :=
  match ls with
  | [] => Some s
  | l :: ls' => match exec l s with Some s' => run ls' s' | None => None end
  end.

(** [steps s s']: some interleaving leads from [s] to [s']. *)
Inductive steps (s : state) : state → Prop :=
| steps_refl : steps s s
| steps_step s1 l s2 : steps s s1 → exec l s1 = Some s2 → steps s s2.

(** The state at line 148, before the first iteration: the monitor has
    been started and the limit has been printed. *)
Definition init : state :=
  {| registry := ∅; sem := 0; wg := 0; pending := modules c;
     main_pc := MRange; pool := []; files := fs0 c;
     console := [UsingGoroutines (capacity c)]; procs := []; now := 0;
     mon := {| ranging := false; visited := []; seen := [] |};
     exited := None |}.

Definition reachable (s : state) : Prop := steps init s.
End Dispatcher.

(** ** [main], lines 94-135 *)

(** What [main] is given. *)
Record Env := {
  env_PathSeparator : ascii;
  flag_p : string;
  flag_i : string;
  flag_m : string;
  flag_o : string;
  MkdirAll_error : option error;   (* line 102 *)
  Open_error : option error;       (* line 108 *)
  scan_lines : list string;        (* the successive scanner.Text() *)
  scan_error : option error;       (* scanner.Err() *)
  NumCPU : Z;
  env_fs : gmap string string;
  env_LookPath : string → string * option error
}.

Definition config_of (e : Env) : Config :=
  {| PathSeparator := env_PathSeparator e;
     volatilityPath := flag_p e; memoryImage := flag_i e; outputDir := flag_o e;
     capacity := Z.to_nat (numGoroutines (NumCPU e));
     modules := scan_loop (scan_lines e);
     fs0 := env_fs e; LookPath := env_LookPath e |}.

(** The calls of [os.Exit(1)] before line 130, with the message printed. *)
Definition fatal (e : Env) : option event :=
  if decide (flag_p e = EmptyString ∨ flag_i e = EmptyString ∨
             flag_m e = EmptyString ∨ flag_o e = EmptyString)
  then Some FlagsRequired
  else match MkdirAll_error e with
       | Some err => Some (MkdirError err)
       | None =>
           match Open_error e with
           | Some err => Some (OpenError err)
           | None =>
               match scan_error e with
               | Some err => Some (ScanError err)
               | None => None
               end
           end
       end.

(** The process once [flag.Parse()] has returned and [main] has reached
    line 148 or has exited. *)
Definition boot (e : Env) : state :=
  match fatal e with
  | Some msg =>
      {| registry := ∅; sem := 0; wg := 0; pending := [];
         main_pc := MExit; pool := []; files := env_fs e;
         console := [msg]; procs := []; now := 0;
         mon := {| ranging := false; visited := []; seen := [] |};
         exited := Some 1%Z |}
  | None => init (config_of e)
  end.

(** Line 94.  [flag.Parse()] on the command line, with the four string
    flags of lines 69-72 and [flag.ExitOnError]: it returns with the flag
    values set, or it prints the usage of lines 76-92 to the standard
    error and ends the process, with status 0 for [-h] and [-help] and
    with status 2 for a flag that is not defined or not well formed. *)
Inductive parse_result :=
| Parsed
| HelpRequested
| BadFlag (err : error).

(** A run of the program: what [flag.Parse()] does with the command line
    and, when it returns, what [main] is given. *)
Record Invocation := {
  flag_Parse : parse_result;
  inv_env : Env
}.

Definition Parse_exit (r : parse_result) : option Z :=
  match r with
  | Parsed => None
  | HelpRequested => Some 0%Z
  | BadFlag _ => Some 2%Z
  end.

(** The process from line 94 on; nothing is printed to the standard
    output when [flag.Parse()] ends it. *)
Definition launch (a : Invocation) : state :=
  match Parse_exit (flag_Parse a) with
  | Some code =>
      {| registry := ∅; sem := 0; wg := 0; pending := [];
         main_pc := MExit; pool := []; files := env_fs (inv_env a);
         console := []; procs := []; now := 0;
         mon := {| ranging := false; visited := []; seen := [] |};
         exited := Some code |}
  | None => boot (inv_env a)
  end.

(** ** Notions of the specification *)

(** A goroutine holds a token of [sem] from its [go] statement until it has
    received from [sem]. *)
Definition holding (g : goroutine) : bool :=
  match g_pc g with Finished => false | _ => true end.

(** A Job Executor is executing: [runModule] has not returned yet. *)
Definition executing (g : goroutine) : bool :=
  match g_pc g with AtRelease | Finished => false | _ => true end.

(** The job is between its [Store] and its [Delete]. *)
Definition registered (g : goroutine) : bool :=
  match g_pc g with
  | AtCreate | AtPrint | AtRun | AtClose | AtDelete => true
  | _ => false
  end.

Fixpoint tally (P : goroutine → bool) (l : list goroutine) : nat :=
  match l with
  | [] => 0
  | g :: l' => (if P g then 1 else 0) + tally P l'
  end.

(** The names of the jobs in flight, that is, between their [Store] and
    their [Delete], with repetitions.  A job that has not stored yet or
    that has run its [Delete] is executing without being in flight. *)
Definition in_flight (s : state) : list string :=
  g_module <$> filter (λ g, registered g = true) (pool s).

(** What [main] holds between line 149 and line 151. *)
Definition main_tokens (p : mpc) : nat :=
  match p with MAdd _ | MGo _ => 1 | _ => 0 end.
Definition main_added (p : mpc) : nat :=
  match p with MGo _ => 1 | _ => 0 end.
Definition main_cur (p : mpc) : list string :=
  match p with MAdd m | MGo m => [m] | _ => [] end.

(** [wg.Wait()] has returned. *)
Definition waited (p : mpc) : bool :=
  match p with MReport | MReturn | MExit => true | _ => false end.

(** The entry [k ↦ t] belongs to a job named [k] that stored [t] and has
    not run its [Delete] yet. *)
Definition owner (l : list goroutine) (k : string) (t : Time) : Prop :=
  ∃ i g, l !! i = Some g ∧ g_module g = k ∧ registered g = true ∧ g_start g = Some t.

(** The pair [(k, t)] was stored by a job named [k] as its start time. *)
Definition stored_by (l : list goroutine) (k : string) (t : Time) : Prop :=
  ∃ i g, l !! i = Some g ∧ g_module g = k ∧ g_start g = Some t.

Record Inv (c : Config) (s : state) : Prop := {
  inv_sem : sem s = tally holding (pool s) + main_tokens (main_pc s);
  inv_wg : wg s = tally executing (pool s) + main_added (main_pc s);
  inv_cap : sem s ≤ capacity c;
  inv_reg : ∀ k t, registry s !! k = Some t → owner (pool s) k t;
  inv_jobs : (g_module <$> pool s) ++ main_cur (main_pc s) ++ pending s = modules c;
  inv_waited : waited (main_pc s) = true → wg s = 0 ∧ pending s = [];
  inv_alive : exited s = None ∨ (exited s = Some 0%Z ∧ main_pc s = MExit)
}.

(** What the goroutines and the monitor remember of the start times. *)
Record InvStart (s : state) : Prop := {
  inv_fresh : Forall (λ g, g_pc g = AtStore ↔ g_start g = None) (pool s);
  inv_seen : ∀ k t, (k, t) ∈ seen (mon s) → stored_by (pool s) k t
}.

(** With pairwise distinct job names every job in flight has its entry. *)
Definition InvDistinct (s : state) : Prop :=
  ∀ i g, pool s !! i = Some g → registered g = true →
         ∃ t, g_start g = Some t ∧ registry s !! g_module g = Some t.

(** What may happen during a quiet pass of the monitor: anything but a
    [Store], a [Delete], and the begin and the end of a pass. *)
Definition keeps_registry (l : label) : bool :=
  match l with
  | GStore _ | GDelete _ | MonRead _ | MonEnd => false
  | _ => true
  end.

(** One pass of the monitor, from the key press to the footer, that no
    [Store] and no [Delete] interleaves with; the clock, [main] and the
    jobs may take any other step meanwhile. *)
Definition pass (c : Config) (s s' : state) : Prop :=
  ∃ ls, forallb keeps_registry ls = true ∧
        run c (MonRead None :: ls ++ [MonEnd]) s = Some s'.

(** The specification's statement that a job whose output file cannot be
    created was never registered. *)
Definition create_failure_unregistered (c : Config) : Prop :=
  ∀ s i g err s',
    reachable c s → pool s !! i = Some g →
    exec c (GCreate i (Some err)) s = Some s' →
    registry s !! g_module g = None.

(** The specification's statement that a snapshot holds exactly the names
    of the jobs in flight. *)
Definition snapshot_exact (c : Config) : Prop :=
  ∀ s s', reachable c s → pass c s s' → (seen (mon s')).*1 ≡ₚ in_flight s.

(** The specification's statement that, of two overlapping jobs of one
    name, the one that is still running when the other has run its
    [Delete] is absent from the registry for the rest of its execution. *)
Definition duplicate_stays_absent (c : Config) : Prop :=
  ∀ m s s' s'' i j gi gj gj',
    reachable c s → i ≠ j →
    pool s !! i = Some gi → g_module gi = m →
    pool s !! j = Some gj → g_module gj = m → executing gj = true →
    exec c (GDelete i) s = Some s' → steps c s' s'' →
    pool s'' !! j = Some gj' → executing gj' = true →
    registry s'' !! m = None.

(** The job has run its [Delete]. *)
Definition deleted (g : goroutine) : bool :=
  match g_pc g with AtDone | AtRelease | Finished => true | _ => false end.

(** A name that some job has stored and no job has deleted yet has its
    entry. *)
Definition present_in (reg : gmap string Time) (l : list goroutine) : Prop :=
  ∀ m, (∃ i g, l !! i = Some g ∧ g_module g = m ∧ registered g = true) →
       (∀ i g, l !! i = Some g → g_module g = m → deleted g = false) →
       is_Some (reg !! m).

Definition InvPresent (s : state) : Prop := present_in (registry s) (pool s).

(** What a visit of the key [k] hands to the callback. *)
Definition entry_of (m : gmap string Time) (k : string) : option (string * Time) :=
  (λ t, (k, t)) <$> m !! k.

(** How often the name [m] occurs in a job list. *)
Definition occurrences (m : string) (l : list string) : nat :=
  length (filter (λ x, x = m) l).

(** No job named [m] can store any more and the registry has no
    entry [m]. *)
Definition gone (m : string) (s : state) : Prop :=
  registry s !! m = None ∧ (m ∉ pending s) ∧ (m ∉ main_cur (main_pc s)) ∧
  Forall (λ g, g_module g = m → g_pc g ≠ AtStore) (pool s).

(** ** Progress measures *)

(** The statements a goroutine still has to execute. *)
Definition rank (g : goroutine) : nat :=
  match g_pc g with
  | AtStore => 8 | AtCreate => 7 | AtPrint => 6 | AtRun => 5 | AtClose => 4
  | AtDelete => 3 | AtDone => 2 | AtRelease => 1 | Finished => 0
  end.

Definition total_rank (l : list goroutine) : nat := sum_list (rank <$> l).

(** The statements [main] still has to execute before [wg.Wait()]. *)
Definition main_work (s : state) : nat :=
  3 * length (pending s) +
  match main_pc s with MAdd _ => 2 | MGo _ => 1 | _ => 0 end.

(** The next statement of a goroutine, with an outcome that lets it go on. *)
Definition next_label (c : Config) (i : nat) (g : goroutine) : label :=
  match g_pc g with
  | AtStore => GStore i
  | AtCreate => GCreate i None
  | AtPrint => GPrint i
  | AtRun =>
      match Err (job_cmd c (g_module g)) with
      | Some err => GRun i (LaunchFailed err)
      | None => GRun i (Exited 0 EmptyString)
      end
  | AtClose => GClose i
  | AtDelete => GDelete i
  | AtDone => GDone i
  | AtRelease | Finished => GRelease i
  end.

(** ** Sample batches *)

Definition demo (cap : nat) (jobs : list string) : Config :=
  {| PathSeparator := "/"%char; volatilityPath := "/usr/bin/vol";
     memoryImage := "/cases/mem.dd"; outputDir := "out";
     capacity := cap; modules := jobs; fs0 := ∅;
     LookPath := λ _, (EmptyString, Some "executable file not found in $PATH") |}.

Definition demo_env (lines : list string) (mkdir open : option error) : Env :=
  {| env_PathSeparator := "/"%char; flag_p := "/usr/bin/vol";
     flag_i := "/cases/mem.dd"; flag_m := "modules.txt"; flag_o := "out";
     MkdirAll_error := mkdir; Open_error := open;
     scan_lines := lines; scan_error := None; NumCPU := 3; env_fs := ∅;
     env_LookPath := λ _, (EmptyString, Some "executable file not found in $PATH") |}.

Definition state_after (c : Config) (ls : list label) : state :=
  default (init c) (run c ls (init c)).

(** The whole of one job: admitted, run with the given result, released. *)
Definition job_trace (i : nat) (r : proc_result) : list label :=
  [MainAcquire; MainAdd; MainGo; GStore i; GCreate i None; GPrint i; GRun i r;
   GClose i; GDelete i; GDone i; GRelease i].

(** The tool given by a bare name that [exec.LookPath] finds, and one
    that it does not find. *)
Definition bare_tool : Config :=
  {| PathSeparator := "/"%char; volatilityPath := "vol";
     memoryImage := "/cases/mem.dd"; outputDir := "out";
     capacity := 1; modules := ["pslist"]; fs0 := ∅;
     LookPath := λ _, ("/usr/local/bin/vol", None) |}.

Definition missing_tool : Config :=
  {| PathSeparator := "/"%char; volatilityPath := "vol";
     memoryImage := "/cases/mem.dd"; outputDir := "out";
     capacity := 1; modules := ["pslist"]; fs0 := ∅;
     LookPath := λ _, (EmptyString, Some "executable file not found in $PATH") |}.

(** Three jobs under a limit of two: two are registered. *)
Definition three_jobs : Config := demo 2 ["pslist"; "pstree"; "netscan"].

Definition two_running_trace : list label :=
  [MainAcquire; MainAdd; MainGo; MainAcquire; MainAdd; MainGo;
   GStore 0; Tick; GStore 1].

Definition two_running : state := state_after three_jobs two_running_trace.

Definition two_running_seen : state :=
  state_after three_jobs
    (two_running_trace ++
     [MonRead None; MonVisit "pstree"; Tick; GCreate 0 None; MonVisit "pslist";
      MonEnd]).

(** One job, up to its [os.Create] and beyond. *)
Definition one_job : Config := demo 1 ["pslist"].

Definition stored_trace : list label := [MainAcquire; MainAdd; MainGo; GStore 0].

Definition pslist_stored : state := state_after one_job stored_trace.

Definition pslist_create_failed : state :=
  state_after one_job (stored_trace ++ [GCreate 0 (Some "permission denied")]).


Definition pslist_in_run : state :=
  state_after one_job (stored_trace ++ [GCreate 0 None; GPrint 0; Tick; Tick]).

Definition pslist_ran : state :=
  state_after one_job
    (stored_trace ++ [GCreate 0 None; GPrint 0; Tick; Tick;
                      GRun 0 (Exited 0 "pid,name")]).

(** Two jobs of the same name overlap; the first one is about to run its
    deferred [Delete] while the second is still in [cmd.Run]. *)
Definition twice : Config := demo 2 ["x"; "x"].

Definition overlap_trace : list label :=
  [MainAcquire; MainAdd; MainGo; MainAcquire; MainAdd; MainGo;
   GStore 0; Tick; GStore 1; GCreate 0 None; GCreate 1 None; GPrint 0; GPrint 1;
   GRun 0 (Exited 0 "pid,name"); GClose 0].

Definition overlap : state := state_after twice overlap_trace.

Definition first_deleted : state :=
  state_after twice (overlap_trace ++ [GDelete 0]).

Definition first_released : state :=
  state_after twice (overlap_trace ++ [GDelete 0; GDone 0; GRelease 0; Tick]).

Definition first_deleted_seen : state :=
  state_after twice (overlap_trace ++ [GDelete 0; MonRead None; MonEnd]).

(** Two jobs of the same name again: the first one fails to create its
    file and runs its deferred [Delete] before the second one, which has
    been started, has stored its start time. *)
Definition late_store_trace : list label :=
  [MainAcquire; MainAdd; MainGo; MainAcquire; MainAdd; MainGo;
   GStore 0; GCreate 0 (Some "permission denied")].

Definition late_store : state := state_after twice late_store_trace.

Definition late_store_deleted : state :=
  state_after twice (late_store_trace ++ [GDelete 0]).

Definition late_store_back : state :=
  state_after twice (late_store_trace ++ [GDelete 0; Tick; GStore 1]).

(** Three jobs of the same name under a limit of two: the third one is
    admitted when the first has returned, while the second still runs. *)
Definition thrice : Config := demo 2 ["x"; "x"; "x"].

Definition third_stored : state :=
  state_after thrice
    [MainAcquire; MainAdd; MainGo; MainAcquire; MainAdd; MainGo;
     GStore 0; GStore 1; GCreate 0 None; GCreate 1 None; GPrint 0; GPrint 1;
     GRun 0 (Exited 0 "pid,name"); GClose 0; GDelete 0; GDone 0; GRelease 0;
     MainAcquire; MainAdd; MainGo; Tick; GStore 2].

(** A batch of two in which one output file cannot be created and the
    other process fails, up to the return of [wg.Wait()]. *)
Definition failing_batch : Config := demo 2 ["pslist"; "badmodule"].

Definition batch_waited : state :=
  state_after failing_batch
    [MainAcquire; MainAdd; MainGo; MainAcquire; MainAdd; MainGo;
     GStore 0; GStore 1; GCreate 0 None; GCreate 1 (Some "permission denied");
     GPrint 0; GRun 0 (Exited 1 "partial"); MonRead None; MonVisit "pslist";
     GDelete 1; GClose 0; MonEnd; GDone 1; GDelete 0; GDone 0; MainWait].

(** A job list with blank lines, and an output directory that cannot be
    created. *)
Definition blank_lines_env : Env :=
  demo_env ["pslist"; EmptyString; "pstree"; EmptyString] None None.

Definition blank_lines_done : state :=
  state_after (config_of blank_lines_env)
    (job_trace 0 (Exited 0 "pid,name") ++ job_trace 1 (LaunchFailed "not found")
     ++ [MainWait]).

Definition mkdir_fails_env : Env :=
  demo_env ["pslist"] (Some "permission denied") None.
(** Three jobs with distinct names under a limit of three; a pass of the
    monitor runs while [c] is stored and [a] is deleted. *)
Definition racing : Config := demo 3 ["a"; "b"; "c"].

Definition racing_before : list label :=
  [MainAcquire; MainAdd; MainGo; MainAcquire; MainAdd; MainGo;
   MainAcquire; MainAdd; MainGo; GStore 0; GStore 1].

Definition racing_pass : list label :=
  [MonRead None; MonVisit "c"; GStore 2; GCreate 0 (Some "permission denied");
   GDelete 0; MonVisit "a"; MonVisit "b"; MonEnd].

(** The registry as it is after each step of the pass. *)
Definition racing_registries : list (list string) :=
  (λ n, (map_to_list (registry
           (state_after racing (racing_before ++ take n racing_pass)))).*1)
    <$> seq 0 (S (length racing_pass)).

(** ** Further notions *)

(** The labels of [monitorKeyPress], and the labels of the statements of
    [main] and of the jobs.  [RuntimeExit], the end of the process once
    [main] has returned, is the runtime's and no statement of [main]. *)
Definition is_monitor_label (l : label) : bool :=
  match l with MonRead _ | MonVisit _ | MonEnd => true | _ => false end.

Definition is_job_label (l : label) : bool :=
  match l with
  | MonRead _ | MonVisit _ | MonEnd | Tick | RuntimeExit => false
  | _ => true
  end.


(** The lines [monitorKeyPress] prints. *)
Definition is_status_event (e : event) : bool :=
  match e with StatusHeader | StatusLine _ _ | StatusFooter => true | _ => false end.

Definition set_console (l : list event) (s : state) : state :=
  {| registry := registry s; sem := sem s; wg := wg s; pending := pending s;
     main_pc := main_pc s; pool := pool s; files := files s;
     console := l; procs := procs s; now := now s; mon := mon s;
     exited := exited s |}.

(** The process without its monitor: no pass and no status line. *)
Definition erase (s : state) : state :=
  set_mon {| ranging := false; visited := []; seen := [] |}
    (set_console (filter (λ e, is_status_event e = false) (console s)) s).

(** The job whose terminal line (lines 32, 42 or 45) the event is. *)
Definition outcome_of (e : event) : option string :=
  match e with
  | CreateError m _ | RunError m _ | Completed m _ => Some m
  | _ => None
  end.

(** The lines 42 and 45, printed when [cmd.Run] has returned. *)
Definition is_run_outcome (e : event) : bool :=
  match e with RunError _ _ | Completed _ _ => true | _ => false end.

Definition outcomes (m : string) (l : list event) : nat :=
  length (filter (λ e, outcome_of e = Some m) l).

(** The job has printed its terminal line. *)
Definition decided (g : goroutine) : bool :=
  match g_pc g with
  | AtClose | AtDelete | AtDone | AtRelease | Finished => true
  | _ => false
  end.

Definition decided_named (m : string) (g : goroutine) : bool :=
  decided g && bool_decide (g_module g = m).

(** The shape of the monitor's output: a header, the status lines, a
    footer.  [Some b]: the output is well formed so far, and [b] tells
    whether a header is waiting for its footer. *)
Definition shape_step (inside : option bool) (e : event) : option bool :=
  match e with
  | StatusHeader => match inside with Some false => Some true | _ => None end
  | StatusLine _ _ => match inside with Some true => Some true | _ => None end
  | StatusFooter => match inside with Some true => Some false | _ => None end
  | _ => inside
  end.

Definition status_shape (l : list event) : option bool :=
  foldl shape_step (Some false) l.

(** The names on the status lines printed since the last header. *)
Definition pass_step (acc : list string) (e : event) : list string :=
  match e with
  | StatusHeader => []
  | StatusLine k _ => acc ++ [k]
  | _ => acc
  end.

Definition last_pass (l : list event) : list string := foldl pass_step [] l.

(** The statements [main] and the goroutines still have to execute at
    most: three statements of [main] and eight of [runModule] for every
    job, then lines 157 and 158. *)
Definition main_left (p : mpc) : nat :=
  match p with
  | MRange => 2 | MAdd _ => 12 | MGo _ => 11 | MReport => 1
  | MReturn | MExit => 0
  end.

Definition budget (s : state) : nat :=
  11 * length (pending s) + main_left (main_pc s) + total_rank (pool s).

(** The time an event reports. *)
Definition reported_time (e : event) : nat :=
  match e with
  | Completed _ d => d
  | StatusLine _ r => r
  | AllCompleted t => t
  | _ => 0
  end.

(** A goroutine whose [cmd.Run] has returned. *)
Definition has_run (g : goroutine) : bool :=
  match g_pc g with
  | AtStore | AtCreate | AtPrint | AtRun => false
  | _ => true
  end.

(** What the console, the commands and the files record of the jobs. *)
Record InvOut (c : Config) (s : state) : Prop := {
  out_named : ∀ m, outcomes m (console s) = tally (decided_named m) (pool s);
  out_total : length (filter (λ e, is_Some (outcome_of e)) (console s))
              = tally decided (pool s);
  out_procs : length (procs s)
              = length (filter (λ e, is_run_outcome e = true) (console s));
  out_files : ∀ p, files s !! p ≠ fs0 c !! p →
                   ∃ i g, pool s !! i = Some g ∧ p = job_outputFile c (g_module g);
  out_kept : ∀ p, is_Some (fs0 c !! p) → is_Some (files s !! p)
}.

(** A goroutine that has created its file and whose [cmd.Run] has not
    returned. *)
Definition created (g : goroutine) : bool :=
  match g_pc g with AtPrint | AtRun => true | _ => false end.

(** With distinct job names: every command that was run belongs to a
    goroutine whose [cmd.Run] has returned, and what a process that was
    started wrote is in that job's file; nothing has reached the file of
    a job whose [cmd.Run] has not returned. *)
Definition InvProcs (c : Config) (s : state) : Prop :=
  (∀ cmd r, (cmd, r) ∈ procs s →
     ∃ i g, pool s !! i = Some g ∧ cmd = job_cmd c (g_module g) ∧
            has_run g = true ∧
            (∀ out, written r = Some out →
                    files s !! job_outputFile c (g_module g) = Some out)) ∧
  (∀ i g, pool s !! i = Some g → created g = true →
          files s !! job_outputFile c (g_module g) = Some EmptyString).

(** No start time lies in the future. *)
Record InvClock (s : state) : Prop := {
  clock_pool : Forall (λ g, ∀ t, g_start g = Some t → t ≤ now s) (pool s);
  clock_registry : map_Forall (λ _ t, t ≤ now s) (registry s);
  clock_seen : Forall (λ kt, kt.2 ≤ now s) (seen (mon s));
  clock_console : Forall (λ e, reported_time e ≤ now s) (console s)
}.

(** What was printed after the total of line 159, if it was printed. *)
Fixpoint after_total (l : list event) : option (list event) :=
  match l with
  | [] => None
  | AllCompleted _ :: l' => Some l'
  | _ :: l' => after_total l'
  end.

(** [main] stands after line 159. *)
Definition returned (p : mpc) : bool :=
  match p with MReturn | MExit => true | _ => false end.

(** [main] has returned exactly when the exit status is 0; the total is
    printed once, when [main] passes line 159, and only the monitor prints
    after it. *)
Definition InvExit (s : state) : Prop :=
  (main_pc s = MExit → exited s = Some 0%Z) ∧
  (if returned (main_pc s)
   then ∃ post, after_total (console s) = Some post ∧
                forallb is_status_event post = true
   else after_total (console s) = None).

(** Sample invocations: the job list with blank lines, [-h], and a flag
    that is not defined. *)
Definition blank_lines_run : Invocation :=
  {| flag_Parse := Parsed; inv_env := blank_lines_env |}.

Definition help_run : Invocation :=
  {| flag_Parse := HelpRequested; inv_env := blank_lines_env |}.

Definition bad_flag_run : Invocation :=
  {| flag_Parse := BadFlag "flag provided but not defined: -x";
     inv_env := blank_lines_env |}.

Definition mkdir_fails_run : Invocation :=
  {| flag_Parse := Parsed; inv_env := mkdir_fails_env |}.

(** The batch of [blank_lines_env] to its end, with a key press between
    the total and the return of [main]. *)
Definition blank_lines_exited : state :=
  state_after (config_of blank_lines_env)
    (job_trace 0 (Exited 1 "pid,name") ++
     job_trace 1 (LaunchFailed "not found") ++
     [MainWait; MainReport; MonRead None; MonEnd; RuntimeExit]).

(** A job list of blank lines only. *)
Definition blank_only_env : Env := demo_env [EmptyString; EmptyString] None None.

Definition blank_only_state : state :=
  state_after (config_of blank_only_env) [MonRead None; Tick; MonEnd; MainWait].

(** * Properties *)

(** ** Counting goroutines *)

Lemma tally_app P l1 l2 : tally P (l1 ++ l2) = tally P l1 + tally P l2.
Proof. induction l1 as [|g l1 IH]; simpl; [done|]. rewrite IH. lia. Qed.

Lemma tally_insert P l i g g' :
  l !! i = Some g →
  tally P (<[i := g']> l) + (if P g then 1 else 0) = tally P l + (if P g' then 1 else 0).
Proof.
  revert i. induction l as [|h l IH]; intros [|i] Hi; simplify_eq/=; [lia|].
  specialize (IH _ Hi). lia.
Qed.

Lemma tally_pos P l i g : l !! i = Some g → P g = true → 1 ≤ tally P l.
Proof.
  revert i. induction l as [|h l IH]; intros [|i] Hi HP; simplify_eq/=.
  - rewrite HP. lia.
  - specialize (IH _ Hi HP). lia.
Qed.

Lemma tally_mono P Q l :
  (∀ g, P g = true → Q g = true) → tally P l ≤ tally Q l.
Proof.
  intros HPQ. induction l as [|g l IH]; simpl; [lia|].
  specialize (HPQ g). destruct (P g), (Q g); lia.
Qed.

Lemma tally_length P l : tally P l ≤ length l.
Proof. induction l as [|g l IH]; simpl; [lia|]. destruct (P g); lia. Qed.

Lemma tally_filter P l : tally P l = length (filter (λ g, P g = true) l).
Proof.
  induction l as [|g l IH]; simpl; [done|].
  rewrite filter_cons. destruct (P g) eqn:E.
  - rewrite decide_True by done. simpl. by rewrite IH.
  - rewrite decide_False by congruence. done.
Qed.

Lemma registered_executing g : registered g = true → executing g = true.
Proof. unfold registered, executing. by destruct (g_pc g). Qed.

Lemma executing_holding g : executing g = true → holding g = true.
Proof. unfold holding, executing. by destruct (g_pc g). Qed.

Lemma fmap_module_insert (l : list goroutine) i g g' :
  l !! i = Some g → g_module g' = g_module g →
  g_module <$> <[i := g']> l = g_module <$> l.
Proof.
  intros Hi Hm. rewrite list_fmap_insert, Hm.
  apply list_insert_id. by rewrite list_lookup_fmap, Hi.
Qed.

Lemma filter_snoc_False {A} (P : A → Prop) `{∀ x, Decision (P x)} (l : list A) x :
  ¬ P x → filter P (l ++ [x]) = filter P l.
Proof.
  intros Hx. rewrite filter_app, filter_cons, decide_False by done.
  simpl. by rewrite app_nil_r.
Qed.

Lemma filter_snoc_True {A} (P : A → Prop) `{∀ x, Decision (P x)} (l : list A) x :
  P x → filter P (l ++ [x]) = filter P l ++ [x].
Proof.
  intros Hx. by rewrite filter_app, filter_cons, decide_True by done.
Qed.

(** ** Owners of registry entries *)

Lemma owner_insert l i g g' k t :
  l !! i = Some g →
  (registered g = true → g_module g = k → g_start g = Some t →
   registered g' = true ∧ g_module g' = k ∧ g_start g' = Some t) →
  owner l k t → owner (<[i := g']> l) k t.
Proof.
  intros Hi Hg (j & h & Hj & Hk & Hr & Ht).
  destruct (decide (i = j)) as [->|Hne].
  - simplify_eq. exists j, g'. split.
    + apply list_lookup_insert_eq. by eapply lookup_lt_Some.
    + destruct (Hg Hr eq_refl Ht) as (? & ? & ?). done.
  - exists j, h. by rewrite list_lookup_insert_ne.
Qed.

Lemma owner_app l g k t : owner l k t → owner (l ++ [g]) k t.
Proof.
  intros (j & h & Hj & ?). exists j, h. split; [|done].
  by apply lookup_app_l_Some.
Qed.

Lemma stored_by_insert l i g g' k t :
  l !! i = Some g →
  (g_module g = k → g_start g = Some t →
   g_module g' = k ∧ g_start g' = Some t) →
  stored_by l k t → stored_by (<[i := g']> l) k t.
Proof.
  intros Hi Hg (j & h & Hj & Hk & Ht).
  destruct (decide (i = j)) as [->|Hne].
  - simplify_eq. exists j, g'. split; [|by apply Hg].
    apply list_lookup_insert_eq. by eapply lookup_lt_Some.
  - exists j, h. by rewrite list_lookup_insert_ne.
Qed.

Lemma stored_by_app l g k t : stored_by l k t → stored_by (l ++ [g]) k t.
Proof.
  intros (j & h & Hj & ?). exists j, h. split; [|done].
  by apply lookup_app_l_Some.
Qed.

Lemma owner_stored_by l k t : owner l k t → stored_by l k t.
Proof. intros (i & g & ? & ? & ? & ?). by exists i, g. Qed.

(** The registry has at most one entry per job in flight. *)
Lemma owned_size (m : gmap string Time) l :
  (∀ k t, m !! k = Some t → owner l k t) → size m ≤ tally registered l.
Proof.
  revert m. induction l as [|g l IH]; intros m Hm.
  - destruct (map_choose_or_empty m) as [(k & t & Hk)| ->].
    + destruct (Hm _ _ Hk) as (i & h & Hi & _). by destruct i.
    + by rewrite map_size_empty.
  - simpl. destruct (registered g) eqn:Hg.
    + assert (size (delete (g_module g) m) ≤ tally registered l) as Hle.
      { apply IH. intros k t [Hne Hk]%lookup_delete_Some.
        destruct (Hm _ _ Hk) as (i & h & Hi & Hh & Hr & Ht).
        destruct i as [|i]; simplify_eq/=. by exists i, h. }
      destruct (m !! g_module g) eqn:E.
      * rewrite <- (insert_delete_id m (g_module g) t) by done.
        rewrite map_size_insert_None by apply lookup_delete_eq. lia.
      * rewrite delete_id in Hle by done. lia.
    + apply IH. intros k t Hk.
      destruct (Hm _ _ Hk) as (i & h & Hi & Hh & Hr & Ht).
      destruct i as [|i]; simplify_eq/=; [congruence|]. by exists i, h.
Qed.

(** ** Interleavings *)

Lemma goroutine_at_Some p i s g :
  goroutine_at p i s = Some g ↔ pool s !! i = Some g ∧ g_pc g = p.
Proof.
  unfold goroutine_at. destruct (pool s !! i) as [g'|].
  - case_decide as Hpc; split.
    + intros [= ->]. done.
    + intros [[= ->] _]. done.
    + done.
    + intros [[= ->] Hp]. done.
  - split; [done|]. by intros [? _].
Qed.

Lemma steps_trans c s1 s2 s3 : steps c s1 s2 → steps c s2 s3 → steps c s1 s3.
Proof. induction 2; [done|]. by eapply steps_step. Qed.

Lemma run_steps c ls s s' : run c ls s = Some s' → steps c s s'.
Proof.
  revert s. induction ls as [|l ls IH]; intros s Hrun; simplify_eq/=.
  - apply steps_refl.
  - destruct (exec c l s) as [s1|] eqn:E; [|done].
    eapply steps_trans; [|by apply IH].
    eapply steps_step; [apply steps_refl|done].
Qed.

Lemma run_app c l1 l2 s :
  run c (l1 ++ l2) s = match run c l1 s with Some s1 => run c l2 s1 | None => None end.
Proof.
  revert s. induction l1 as [|l l1 IH]; intros s; simpl; [done|].
  destruct (exec c l s); [apply IH|done].
Qed.

Lemma state_after_reachable c ls s :
  run c ls (init c) = Some s → reachable c (state_after c ls).
Proof.
  intros Hrun. unfold state_after. rewrite Hrun. by apply (run_steps c ls).
Qed.

(** ** The invariants *)

Lemma inv_init c : Inv c (init c).
Proof. split; simpl; try done; try lia; auto. Qed.

Ltac step_at H :=
  match type of H with
  | context [goroutine_at ?p ?i ?s] =>
      let E := fresh "Hat" in
      destruct (goroutine_at p i s) as [?g|] eqn:E; [|discriminate];
      apply goroutine_at_Some in E; destruct E as [?Hpool ?Hpc]
  end.

Ltac unfold_steps H :=
  unfold exec in H;
  match type of H with
  | context [exited ?s] =>
      let E := fresh "Hexit" in destruct (exited s) eqn:E; [discriminate|]
  end;
  unfold acquire_step, add_step, go_step, wait_step, report_step, runtime_exit_step,
    store_step, create_step, print_step, run_step, close_step, delete_step,
    done_step, release_step, read_step, visit_step, end_step in H.

Ltac cases_of H l :=
  unfold_steps H;
  destruct l; simpl in H; try step_at H;
  try match type of H with
      | context [launchable _ ?r] => is_var r; destruct r
      end;
  simpl in H; repeat case_match; simplify_eq/=.

Ltac tally_goal :=
  repeat match goal with H : context [tally _ _] |- _ => revert H end;
  repeat match goal with
  | Hp : pool ?s !! ?i = Some ?g |- context [tally ?P (<[?i := ?g']> (pool ?s))] =>
      let E := fresh in
      pose proof (tally_insert P (pool s) i g g' Hp) as E;
      revert E; generalize (tally P (<[i := g']> (pool s)));
      generalize (tally P (pool s)); intros ? ?
  end;
  rewrite ?tally_app;
  unfold holding, executing, registered, at_pc in *; simpl in *;
  repeat match goal with Hpc : g_pc _ = _ |- _ => rewrite Hpc in *; clear Hpc end;
  simpl in *; lia.

Ltac owner_goal Hreg :=
  let k := fresh "k" in let t := fresh "t" in let Hk := fresh "Hk" in
  intros k t Hk;
  first
    [ apply owner_app; by apply Hreg
    | apply lookup_delete_Some in Hk as [? Hk];
      eapply owner_insert; [eassumption | | by apply Hreg];
      unfold registered, at_pc; simpl; congruence
    | eapply owner_insert; [eassumption | | by apply Hreg];
      unfold registered, at_pc; simpl;
      repeat match goal with Hpc : g_pc _ = _ |- _ => rewrite Hpc; clear Hpc end;
      (done || congruence) ].

Lemma inv_step c s l s' : Inv c s → exec c l s = Some s' → Inv c s'.
Proof.
  intros [Hsem Hwg Hcap Hreg Hjobs Hwaited Halive] Hex.
  cases_of Hex l.
  all: try (exfalso;
            assert (executing g = true) as Hx by (unfold executing; by rewrite Hpc);
            pose proof (tally_pos executing _ _ _ Hpool Hx); lia).
  all: split; simpl.
  all: try done; try lia; try (by left); try (by right).
  all: try (erewrite fmap_module_insert by (done || by eauto); done).
  all: try tally_goal.
  all: try (owner_goal Hreg).
  - rewrite fmap_app, <- Hjobs, <- app_assoc. done.
  - by rewrite <- Hjobs, H0.
  - intros k t Hk. destruct (decide (g_module g = k)) as [<-|Hne].
    + rewrite lookup_insert_eq in Hk. simplify_eq.
      exists i, {| g_module := g_module g; g_pc := AtCreate; g_start := Some (now s) |}.
      split; [|done]. apply list_lookup_insert_eq. by eapply lookup_lt_Some.
    + rewrite lookup_insert_ne in Hk by done.
      eapply owner_insert; [eassumption | | by apply Hreg]. simpl. congruence.
  - intros Hw. destruct (Hwaited Hw). lia.
Qed.

Lemma inv_reachable c s : reachable c s → Inv c s.
Proof. induction 1; [apply inv_init | by eapply inv_step]. Qed.

Lemma start_init c : InvStart (init c).
Proof. split; simpl; [constructor|]. intros k t Hk. by apply elem_of_nil in Hk. Qed.

Lemma start_step c s l s' :
  Inv c s → InvStart s → exec c l s = Some s' → InvStart s'.
Proof.
  intros HI [Hfresh Hseen] Hex.
  cases_of Hex l.
  all: split; simpl; try done.
  all: try (apply Forall_insert; [done|]; unfold at_pc; simpl;
            eapply Forall_lookup_1 in Hfresh; [|eassumption];
            rewrite Hpc in Hfresh; split; intros; [done|];
            destruct Hfresh as [_ Hf]; by discriminate Hf).
  all: try (intros k t Hk; eapply stored_by_insert; [eassumption| |by apply Hseen];
            unfold at_pc; simpl; done).
  - apply Forall_app. split; [done|]. by repeat constructor.
  - intros k t Hk. by apply stored_by_app, Hseen.
  - apply Forall_insert; [done|]. simpl. split; intros; discriminate.
  - intros k t Hk. eapply stored_by_insert; [eassumption| |by apply Hseen].
    intros _ Hs. eapply Forall_lookup_1 in Hfresh; [|eassumption].
    apply Hfresh in Hpc. congruence.
  - intros k t Hk. by apply elem_of_nil in Hk.
  - intros k0 t0 [Hk|Hk%list_elem_of_singleton]%elem_of_app; [by apply Hseen|].
    simplify_eq. by apply owner_stored_by, (inv_reg c s HI).
Qed.

Lemma start_reachable c s : reachable c s → InvStart s.
Proof.
  induction 1 as [|s1 l s2 Hs IH Hex]; [apply start_init|].
  eapply start_step; [by apply inv_reachable| |]; done.
Qed.

(** Distinct names in the job list are distinct names in the pool. *)
Lemma pool_modules_inj c s i j g h :
  NoDup (modules c) → Inv c s →
  pool s !! i = Some g → pool s !! j = Some h → g_module g = g_module h → i = j.
Proof.
  intros Hnd HI Hi Hj Hm.
  rewrite <- (inv_jobs c s HI) in Hnd. apply NoDup_app in Hnd as [Hnd _].
  eapply NoDup_lookup; [exact Hnd| |].
  - by rewrite list_lookup_fmap, Hi.
  - by rewrite list_lookup_fmap, Hj, Hm.
Qed.

Lemma distinct_init c : InvDistinct (init c).
Proof. intros i g Hi. by destruct i. Qed.

Lemma distinct_step c s l s' :
  NoDup (modules c) → Inv c s → InvDistinct s →
  exec c l s = Some s' → InvDistinct s'.
Proof.
  intros Hnd HI HD Hex.
  pose proof (pool_modules_inj c s) as Hinj.
  cases_of Hex l.
  all: intros j h Hj Hr; simpl in *.
  all: try (by apply HD with j).
  all: try (apply list_lookup_insert_Some in Hj as [(-> & <- & _)|[Hne Hj]];
            [ try (unfold registered, at_pc in Hr; simpl in Hr; discriminate Hr)
            | ]).
  all: try (by apply HD with j).
  all: try (unfold at_pc; simpl; apply HD with j; [done|];
            unfold registered; by rewrite Hpc).
  - apply lookup_app_Some in Hj as [Hj|[_ Hj]]; [by apply HD with j|].
    apply list_lookup_singleton_Some in Hj as [_ <-]. discriminate Hr.
  - simpl. exists (now s). by rewrite lookup_insert_eq.
  - destruct (HD j h Hj Hr) as (t & Ht & Hk). exists t. split; [done|].
    rewrite lookup_insert_ne; [done|].
    intros Hm. apply Hne. by eapply Hinj.
  - destruct (HD j h Hj Hr) as (t & Ht & Hk). exists t. split; [done|].
    rewrite lookup_delete_ne; [done|].
    intros Hm. apply Hne. by eapply Hinj.
Qed.

Lemma distinct_reachable c s : NoDup (modules c) → reachable c s → InvDistinct s.
Proof.
  intros Hnd. induction 1 as [|s1 l s2 Hs IH Hex]; [apply distinct_init|].
  eapply distinct_step; [done|by apply inv_reachable|done|done].
Qed.

(** ** The concurrency limit *)

(** C2. For every limit [N >= 1] and every job list: each goroutine that
    has been admitted and has not yet received from [sem] holds exactly one
    token (the token is acquired at line 149 before the [go] statement),
    so at most [N] Job Executors execute at any time; a goroutine whose
    [runModule] has returned, whatever the outcome of the job, gives its
    token back at line 153; and the registry never has more than
    [min N M] entries, [M] the number of jobs. *)
Theorem concurrency_bound (c : Config) (s : state) :
  1 ≤ capacity c → reachable c s →
  sem s = tally holding (pool s) + main_tokens (main_pc s) ∧
  tally executing (pool s) ≤ capacity c ∧
  (∀ i g, pool s !! i = Some g → g_pc g = AtRelease → exited s = None →
          ∃ s', exec c (GRelease i) s = Some s' ∧ S (sem s') = sem s) ∧
  size (registry s) ≤ capacity c `min` length (modules c).
Proof.
  intros _ Hs. pose proof (inv_reachable c s Hs) as HI.
  destruct HI as [Hsem Hwg Hcap Hreg Hjobs _ _].
  assert (tally executing (pool s) ≤ tally holding (pool s)) as Hle
    by (apply tally_mono, executing_holding).
  split; [done|]. split; [lia|]. split.
  - intros i g Hi Hpc Hexit. unfold exec, release_step. rewrite Hexit.
    assert (goroutine_at AtRelease i s = Some g) as -> by by apply goroutine_at_Some.
    assert (holding g = true) as Hh by (unfold holding; by rewrite Hpc).
    pose proof (tally_pos holding _ _ _ Hi Hh).
    destruct (sem s) as [|n] eqn:E; [lia|]. by eexists.
  - pose proof (owned_size _ _ Hreg) as Hsize.
    assert (tally registered (pool s) ≤ tally executing (pool s)) as Hre
      by (apply tally_mono, registered_executing).
    pose proof (tally_length registered (pool s)) as Hlen.
    assert (length (pool s) ≤ length (modules c)).
    { rewrite <- Hjobs, !length_app, length_fmap. lia. }
    lia.
Qed.

Lemma concurrency_bound_witness :
  tally executing (pool two_running) ≤ 2 ∧
  size (registry two_running) ≤ 2 `min` 3.
Proof.
  assert (1 ≤ capacity three_jobs) as Hcap by (vm_compute; lia).
  assert (reachable three_jobs two_running) as Hs
    by (by eapply state_after_reachable; vm_compute).
  destruct (concurrency_bound three_jobs two_running Hcap Hs)
    as (_ & Hexec & _ & Hsize).
  split; [exact Hexec | exact Hsize].
Defined.

(** Both bounds are reached: two tokens are taken, two jobs execute and
    two entries are in the registry. *)
Example two_running_at_limit :
  sem two_running = 2 ∧ tally executing (pool two_running) = 2 ∧
  size (registry two_running) = 2.
Proof. by vm_compute. Qed.

(** ** Deregistration *)

(** C3. Once [wg.Wait()] has returned the registry is empty: every job of
    the list has been admitted, every [runModule] has returned, and each
    one ran its deferred [Delete] before its deferred [wg.Done]. *)
Theorem registry_empty_after_wait (c : Config) (s : state) :
  reachable c s → waited (main_pc s) = true →
  registry s = ∅ ∧
  g_module <$> pool s = modules c ∧
  Forall (λ g, executing g = false) (pool s).
Proof.
  intros Hs Hw. pose proof (inv_reachable c s Hs) as HI.
  destruct HI as [_ Hwg _ Hreg Hjobs Hwaited _].
  destruct (Hwaited Hw) as [Hwg0 Hpend].
  assert (tally executing (pool s) = 0) as Hnone by lia.
  assert (Forall (λ g, executing g = false) (pool s)) as Hall.
  { apply Forall_lookup. intros i g Hi.
    destruct (executing g) eqn:E; [|done].
    pose proof (tally_pos executing _ _ _ Hi E). lia. }
  split; [|split; [|done]].
  - apply map_empty. intros k. destruct (registry s !! k) as [t|] eqn:E; [|done].
    destruct (Hreg _ _ E) as (i & g & Hi & _ & Hr & _).
    apply registered_executing in Hr.
    pose proof (tally_pos executing _ _ _ Hi Hr). lia.
  - rewrite <- Hjobs, Hpend. destruct (main_pc s); simplify_eq/=; by rewrite app_nil_r.
Qed.

Lemma registry_empty_after_wait_witness :
  main_pc batch_waited = MReport ∧ registry batch_waited = ∅.
Proof.
  assert (reachable failing_batch batch_waited) as Hs
    by (by eapply state_after_reachable; vm_compute).
  assert (waited (main_pc batch_waited) = true) as Hw by (by vm_compute).
  split; [by vm_compute|].
  exact (proj1 (registry_empty_after_wait failing_batch batch_waited Hs Hw)).
Defined.

(** ** Progress *)

Lemma total_rank_insert l i g g' :
  l !! i = Some g →
  total_rank (<[i := g']> l) + rank g = total_rank l + rank g'.
Proof.
  unfold total_rank. revert i.
  induction l as [|h l IH]; intros [|i] Hi; simplify_eq/=; csimpl; [lia|].
  specialize (IH _ Hi). lia.
Qed.

Lemma total_rank_zero l :
  total_rank l = 0 → Forall (λ g, g_pc g = Finished) l.
Proof.
  unfold total_rank. induction l as [|g l IH]; csimpl; intros Hz; constructor.
  - unfold rank in Hz. destruct (g_pc g); (done || lia).
  - apply IH. lia.
Qed.

Lemma total_rank_pos l :
  0 < total_rank l → ∃ i g, l !! i = Some g ∧ g_pc g ≠ Finished.
Proof.
  unfold total_rank. induction l as [|g l IH]; csimpl; intros Hz; [lia|].
  destruct (decide (g_pc g = Finished)) as [Hf|Hf].
  - unfold rank in Hz at 1. rewrite Hf in Hz.
    destruct (IH ltac:(lia)) as (i & h & Hi & Hh). by exists (S i), h.
  - by exists 0, g.
Qed.

(** A goroutine that has not finished can always execute its next
    statement: nothing in [runModule] waits for another goroutine, the
    WaitGroup counter is positive at [wg.Done] and [sem] is not empty at
    line 153. *)
Lemma goroutine_progress c s i g :
  reachable c s → exited s = None →
  pool s !! i = Some g → g_pc g ≠ Finished →
  ∃ s', exec c (next_label c i g) s = Some s' ∧ exited s' = None ∧
        main_pc s' = main_pc s ∧ pending s' = pending s ∧
        total_rank (pool s') < total_rank (pool s).
Proof.
  intros Hs Hexit Hi Hpc.
  pose proof (inv_reachable c s Hs) as [Hsem Hwg _ _ _ _ _].
  assert (holding g = true) as Hh by (unfold holding; by destruct (g_pc g)).
  pose proof (tally_pos holding _ _ _ Hi Hh) as Hhold.
  unfold next_label, exec. rewrite Hexit.
  destruct (g_pc g) eqn:E; try done.
  all: try match goal with
           | |- context [Err ?cmd] => destruct (Err cmd) as [err|] eqn:EE
           end.
  all: unfold store_step, create_step, print_step, run_step, close_step,
         delete_step, done_step, release_step.
  all: match goal with
       | |- context [goroutine_at ?p ?j ?s0] =>
           assert (goroutine_at p j s0 = Some g) as -> by by apply goroutine_at_Some
       end.
  all: try match goal with
           | |- context [launchable ?cmd ?r] =>
               assert (launchable cmd r = true) as ->
                 by (unfold launchable; rewrite EE; by rewrite ?bool_decide_eq_true_2)
           end.
  all: try (assert (executing g = true) as Hx by (unfold executing; by rewrite E);
            pose proof (tally_pos executing _ _ _ Hi Hx) as Hexec).
  all: try (destruct (wg s) as [|n] eqn:Ewg; [lia|]).
  all: try (destruct (sem s) as [|n] eqn:Esem; [lia|]).
  all: eexists; split; [reflexivity|]; simpl; repeat (split; [done|]).
  all: match goal with
       | |- context [total_rank (<[?j := ?g']> (pool ?s0))] =>
           pose proof (total_rank_insert (pool s0) j g g' Hi) as Hr;
           revert Hr; generalize (total_rank (<[j := g']> (pool s0)));
           generalize (total_rank (pool s0)); unfold rank, at_pc; simpl;
           rewrite E; lia
       end.
Qed.

(** From any state the goroutines can all run to their end while [main]
    stands still. *)
Lemma goroutines_can_finish c s :
  reachable c s → exited s = None →
  ∃ s', steps c s s' ∧ exited s' = None ∧ main_pc s' = main_pc s ∧
        pending s' = pending s ∧ Forall (λ g, g_pc g = Finished) (pool s').
Proof.
  remember (total_rank (pool s)) as n eqn:Hn. revert s Hn.
  induction n as [n IH] using lt_wf_ind. intros s Hn Hs Hexit.
  destruct (decide (total_rank (pool s) = 0)) as [Hz|Hz].
  - exists s. split; [apply steps_refl|]. repeat (split; [done|]).
    by apply total_rank_zero.
  - destruct (total_rank_pos (pool s)) as (i & g & Hi & Hpc); [lia|].
    destruct (goroutine_progress c s i g Hs Hexit Hi Hpc)
      as (s1 & Hex & Hexit1 & Hmain & Hpend & Hlt).
    assert (reachable c s1) as Hs1 by (by eapply steps_step).
    destruct (IH (total_rank (pool s1)) ltac:(lia) s1 eq_refl Hs1 Hexit1)
      as (s2 & Hsteps & ? & ? & ? & ?).
    exists s2. split; [|by repeat split; congruence].
    eapply steps_trans; [|exact Hsteps].
    eapply steps_step; [apply steps_refl|exact Hex].
Qed.

Lemma tally_finished P l :
  (∀ g, g_pc g = Finished → P g = false) →
  Forall (λ g, g_pc g = Finished) l → tally P l = 0.
Proof.
  intros HP. induction 1 as [|g l Hg _ IH]; simpl; [done|].
  by rewrite (HP g Hg), IH.
Qed.

(** With a limit of at least one, the batch can run to the return of
    [wg.Wait()] from every state the process can be in. *)
Lemma batch_can_complete c s :
  1 ≤ capacity c → reachable c s → exited s = None →
  ∃ s', steps c s s' ∧ waited (main_pc s') = true.
Proof.
  intros Hcap. remember (main_work s) as n eqn:Hn. revert s Hn.
  induction n as [n IH] using lt_wf_ind. intros s Hn Hs Hexit.
  destruct (goroutines_can_finish c s Hs Hexit)
    as (s1 & Hsteps1 & Hexit1 & Hmain1 & Hpend1 & Hfin1).
  assert (reachable c s1) as Hs1 by (by eapply steps_trans).
  pose proof (inv_reachable c s1 Hs1) as [Hsem Hwg _ _ _ _ _].
  rewrite (tally_finished holding) in Hsem
    by (done || (intros g Hg; unfold holding; by rewrite Hg)).
  rewrite (tally_finished executing) in Hwg
    by (done || (intros g Hg; unfold executing; by rewrite Hg)).
  assert (main_work s1 = n) as Hn1
    by (rewrite Hn; unfold main_work; by rewrite Hmain1, Hpend1).
  assert (∀ l s2, exec c l s1 = Some s2 → exited s2 = None →
                  main_work s2 < n →
                  ∃ s', steps c s s' ∧ waited (main_pc s') = true) as Hnext.
  { intros l s2 Hex Hexit2 Hlt.
    assert (reachable c s2) as Hs2 by (by eapply steps_step).
    destruct (IH _ Hlt s2 eq_refl Hs2 Hexit2) as (s3 & Hsteps3 & Hw).
    exists s3. split; [|done].
    eapply steps_trans; [exact Hsteps1|].
    eapply steps_trans; [|exact Hsteps3].
    eapply steps_step; [apply steps_refl|exact Hex]. }
  unfold main_work in Hn1.
  destruct (main_pc s1) eqn:Hpc; simpl in *.
  - destruct (pending s1) as [|m rest] eqn:Hpend.
    + exists (set_main_pc MReport s1). split; [|done].
      eapply steps_trans; [exact Hsteps1|].
      apply (steps_step c s1 s1 MainWait); [apply steps_refl|].
      unfold exec, wait_step. rewrite Hexit1, Hpc, Hpend.
      by rewrite decide_True by lia.
    + apply (Hnext MainAcquire
               (set_main_pc (MAdd m) (set_pending rest (set_sem (S (sem s1)) s1)))).
      * unfold exec, acquire_step. rewrite Hexit1, Hpc, Hpend.
        by rewrite decide_True by lia.
      * done.
      * unfold main_work. simpl in *. lia.
  - apply (Hnext MainAdd (set_main_pc (MGo module) (set_wg (S (wg s1)) s1))).
    + unfold exec, add_step. by rewrite Hexit1, Hpc.
    + done.
    + unfold main_work. simpl. lia.
  - eapply (Hnext MainGo).
    + unfold exec, go_step. by rewrite Hexit1, Hpc.
    + done.
    + unfold main_work. simpl. lia.
  - exists s1. by rewrite Hpc.
  - exists s1. by rewrite Hpc.
  - exists s1. by rewrite Hpc.
Qed.

(** ** A job whose output file cannot be created *)

(** C1 does not hold as the specification states it: [runModule] stores
    the start time (line 23) before it tries to create the output file
    (line 30); here the job [pslist] is in the registry
    when [os.Create] fails. *)
Lemma create_failure_was_registered :
  ¬ create_failure_unregistered one_job.
Proof.
  intros Hclaim.
  assert (reachable one_job pslist_stored) as Hs
    by (by eapply state_after_reachable; vm_compute).
  assert (registry pslist_stored !! "pslist" = None) as Hnone.
  { apply (Hclaim pslist_stored 0
             {| g_module := "pslist"; g_pc := AtCreate; g_start := Some 0 |}
             "permission denied" pslist_create_failed Hs); by vm_compute. }
  vm_compute in Hnone. discriminate Hnone.
Qed.

(** C1, as the code has it. When [os.Create] fails for a job, the job has
    already stored its start time (with distinct job names the entry is
    in the registry at that moment); the error is printed, only this
    goroutine moves, straight to its deferred calls, no command is run, no
    file is written, the rest of the batch is untouched and the process
    goes on; the deferred [Delete] then removes the entry. *)
Theorem create_failure_aborts_job (c : Config) (s s' : state) (i : nat)
    (g : goroutine) (err : error) :
  reachable c s → pool s !! i = Some g →
  exec c (GCreate i (Some err)) s = Some s' →
  (∃ t, g_start g = Some t ∧
        (NoDup (modules c) → registry s !! g_module g = Some t)) ∧
  console s' = console s ++ [CreateError (g_module g) err] ∧
  pool s' = <[i := at_pc AtDelete g]> (pool s) ∧
  registry s' = registry s ∧ files s' = files s ∧ procs s' = procs s ∧
  pending s' = pending s ∧ main_pc s' = main_pc s ∧
  sem s' = sem s ∧ wg s' = wg s ∧ exited s' = None ∧
  ∃ s'', exec c (GDelete i) s' = Some s'' ∧ registry s'' !! g_module g = None.
Proof.
  intros Hs Hi Hex.
  pose proof (start_reachable c s Hs) as [Hfresh _].
  unfold exec, create_step in Hex.
  destruct (exited s) eqn:Hexit; [done|].
  destruct (goroutine_at AtCreate i s) as [g'|] eqn:Hat; [|done].
  apply goroutine_at_Some in Hat as [Hi' Hpc]. simplify_eq/=.
  split.
  { eapply Forall_lookup_1 in Hfresh; [|exact Hi].
    destruct (g_start g) as [t|] eqn:Hstart.
    - exists t. split; [done|]. intros Hnd.
      destruct (distinct_reachable c s Hnd Hs i g Hi) as (t' & Ht' & Hreg).
      + unfold registered. by rewrite Hpc.
      + congruence.
    - destruct Hfresh as [_ Hf]. specialize (Hf eq_refl). congruence. }
  repeat (split; [done|]).
  unfold exec, delete_step. simpl. rewrite Hexit.
  assert (goroutine_at AtDelete i (print (CreateError (g_module g) err) (goto i g AtDelete s))
          = Some (at_pc AtDelete g)) as ->.
  { apply goroutine_at_Some. simpl. split; [|done].
    apply list_lookup_insert_eq. by eapply lookup_lt_Some. }
  eexists. split; [done|]. simpl. apply lookup_delete_eq.
Qed.

Lemma create_failure_aborts_job_witness :
  registry pslist_stored !! "pslist" = Some 0 ∧
  console pslist_create_failed =
    console pslist_stored ++ [CreateError "pslist" "permission denied"] ∧
  registry pslist_create_failed = registry pslist_stored.
Proof.
  assert (reachable one_job pslist_stored) as Hs
    by (by eapply state_after_reachable; vm_compute).
  assert (pool pslist_stored !! 0 =
          Some {| g_module := "pslist"; g_pc := AtCreate; g_start := Some 0 |})
    as Hi by (by vm_compute).
  assert (exec one_job (GCreate 0 (Some "permission denied")) pslist_stored =
          Some pslist_create_failed) as Hex by (by vm_compute).
  destruct (create_failure_aborts_job one_job _ _ _ _ _ Hs Hi Hex)
    as ((t & Ht & Hreg) & Hconsole & _ & Hsame & _).
  assert (NoDup (modules one_job)) as Hnd
    by (apply (bool_decide_unpack _); by vm_compute).
  simpl in Ht. injection Ht as <-.
  split; [exact (Hreg Hnd)|]. split; [exact Hconsole | exact Hsame].
Defined.

(** ** The status monitor *)

Lemma elem_of_entries (m : gmap string Time) (ks : list string) k t :
  (k, t) ∈ omap (entry_of m) ks ↔ k ∈ ks ∧ m !! k = Some t.
Proof.
  rewrite list_elem_of_omap. unfold entry_of. split.
  - intros (k' & Hin & Hk). destruct (m !! k') as [t'|] eqn:E; simplify_eq/=. done.
  - intros [Hin Hk]. exists k. by rewrite Hk.
Qed.

Lemma NoDup_entries (m : gmap string Time) (ks : list string) :
  NoDup ks → NoDup (omap (entry_of m) ks).
Proof.
  induction 1 as [|k ks Hk Hnd IH]; simpl; [constructor|].
  unfold entry_of at 1. destruct (m !! k) as [t|] eqn:E; simpl; [|done].
  constructor; [|done]. rewrite elem_of_entries. tauto.
Qed.

(** The jobs in flight stay the same when a goroutine moves without
    passing its [Store] or its [Delete]. *)
Lemma in_flight_insert (l : list goroutine) i g g' :
  l !! i = Some g → g_module g' = g_module g → registered g' = registered g →
  g_module <$> filter (λ g, registered g = true) (<[i := g']> l)
  = g_module <$> filter (λ g, registered g = true) l.
Proof.
  revert i. induction l as [|h l IH]; intros [|i] Hi Hm Hr; simplify_eq/=.
  - rewrite !filter_cons, Hr. case_decide; csimpl; by rewrite ?Hm.
  - rewrite !filter_cons. case_decide; csimpl; by erewrite IH.
Qed.

(** A step that is no [Store] and no [Delete] leaves the registry and the
    jobs in flight as they are; a visit of the monitor reads the
    registry. *)
Lemma quiet_step c l s s1 :
  keeps_registry l = true → ranging (mon s) = true → exec c l s = Some s1 →
  registry s1 = registry s ∧ ranging (mon s1) = true ∧
  in_flight s1 = in_flight s ∧
  ∃ ks, visited (mon s1) = visited (mon s) ++ ks ∧
        seen (mon s1) = seen (mon s) ++ omap (entry_of (registry s)) ks ∧
        (NoDup (visited (mon s)) → NoDup (visited (mon s) ++ ks)).
Proof.
  intros Hk Hr Hex. cases_of Hex l; try discriminate Hk.
  all: split; [done|]; split; [done|]; split.
  all: try done.
  all: try (exists []; by rewrite !app_nil_r).
  all: try (unfold in_flight; simpl;
            eapply in_flight_insert; [eassumption|done|];
            unfold registered, at_pc; simpl; by rewrite Hpc).
  - unfold in_flight. simpl. by rewrite filter_snoc_False.
  - exists [k]. simpl. unfold entry_of.
    match goal with Hk : registry s !! k = _ |- _ => rewrite Hk end. simpl.
    split; [done|]. split; [done|]. intros Hnd.
    apply NoDup_app. repeat split; [done| |apply NoDup_singleton].
    by intros x Hx ->%list_elem_of_singleton.
  - exists [k]. simpl. unfold entry_of.
    match goal with Hk : registry s !! k = _ |- _ => rewrite Hk end. simpl.
    rewrite app_nil_r. split; [done|]. split; [done|]. intros Hnd.
    apply NoDup_app. repeat split; [done| |apply NoDup_singleton].
    by intros x Hx ->%list_elem_of_singleton.
Qed.

(** So does a run of such steps. *)
Lemma quiet_run c ls s s1 :
  forallb keeps_registry ls = true → ranging (mon s) = true →
  run c ls s = Some s1 →
  registry s1 = registry s ∧ ranging (mon s1) = true ∧
  in_flight s1 = in_flight s ∧
  ∃ ks, visited (mon s1) = visited (mon s) ++ ks ∧
        seen (mon s1) = seen (mon s) ++ omap (entry_of (registry s)) ks ∧
        (NoDup (visited (mon s)) → NoDup (visited (mon s) ++ ks)).
Proof.
  revert s. induction ls as [|l ls IH]; intros s Hall Hr Hrun; simplify_eq/=.
  - repeat (split; [done|]). exists []. by rewrite !app_nil_r.
  - apply andb_prop in Hall as [Hl Hall].
    destruct (exec c l s) as [s2|] eqn:Hex; [|done].
    destruct (quiet_step c l s s2 Hl Hr Hex)
      as (Hreg1 & Hr1 & Hf1 & ks1 & Hv1 & Hs1 & Hnd1).
    destruct (IH s2 Hall Hr1 Hrun) as (Hreg2 & Hr2 & Hf2 & ks2 & Hv2 & Hs2 & Hnd2).
    split; [congruence|]. split; [done|]. split; [congruence|].
    exists (ks1 ++ ks2). rewrite Hv2, Hs2, Hv1, Hs1, Hreg1, omap_app, !app_assoc.
    split; [done|]. split; [done|]. intros Hnd.
    rewrite Hv1 in Hnd2. by apply Hnd2, Hnd1.
Qed.

(** A pass that no [Store] and no [Delete] interleaves with hands the
    callback exactly the entries of the registry, each once; the registry
    and the jobs in flight are the same when it ends. *)
Lemma pass_registry c s s' :
  pass c s s' →
  seen (mon s') ≡ₚ map_to_list (registry s) ∧
  registry s' = registry s ∧ in_flight s' = in_flight s.
Proof.
  intros (ls & Hall & Hrun). simpl in Hrun.
  destruct (exec c (MonRead None) s) as [s1|] eqn:Hread; [|done].
  unfold exec, read_step in Hread.
  destruct (exited s) eqn:Hexit; [done|].
  destruct (ranging (mon s)) eqn:Hr; simplify_eq/=.
  rewrite run_app in Hrun.
  destruct (run c ls _) as [s2|] eqn:Hquiet; [|done].
  apply quiet_run in Hquiet as (Hreg & Hr2 & Hfl & ks & Hv & Hs & Hnd); [|done..].
  simpl in *. specialize (Hnd (NoDup_nil_2)).
  destruct (exec c MonEnd s2) as [s3|] eqn:Hend; [|done].
  injection Hrun as <-.
  unfold exec, end_step in Hend. rewrite Hr2 in Hend.
  destruct (exited s2); [done|].
  case_decide as Hvis; [|done]. injection Hend as <-. simpl.
  split; [|done].
  rewrite Hs. rewrite Hreg, Hv in Hvis. simpl in Hvis.
  apply NoDup_Permutation.
  - by apply NoDup_entries.
  - apply NoDup_map_to_list.
  - intros [k t]. rewrite elem_of_entries, elem_of_map_to_list.
    split; [tauto|]. intros Hk. split; [|done]. by apply (Hvis k t).
Qed.

Lemma in_flight_lookup s k :
  k ∈ in_flight s ↔ ∃ i g, pool s !! i = Some g ∧ g_module g = k ∧ registered g = true.
Proof.
  unfold in_flight. rewrite list_elem_of_fmap. split.
  - intros (g & -> & [Hg Hr]%list_elem_of_filter).
    apply list_elem_of_lookup in Hr as [i Hi]. by exists i, g.
  - intros (i & g & Hi & <- & Hr). exists g. split; [done|].
    apply list_elem_of_filter. split; [done|]. by eapply list_elem_of_lookup_2.
Qed.

(** The entries of the registry are the jobs in flight when no name occurs
    twice in the job list. *)
Lemma registry_in_flight c s :
  NoDup (modules c) → reachable c s →
  (map_to_list (registry s)).*1 ≡ₚ in_flight s.
Proof.
  intros Hnd Hs.
  pose proof (inv_reachable c s Hs) as HI.
  pose proof (distinct_reachable c s Hnd Hs) as HD.
  apply NoDup_Permutation.
  - apply NoDup_fst_map_to_list.
  - unfold in_flight.
    rewrite <- (inv_jobs c s HI) in Hnd. apply NoDup_app in Hnd as [Hnd _].
    eapply sublist_NoDup; [exact Hnd|]. apply fmap_sublist, sublist_filter.
  - intros k. rewrite in_flight_lookup, list_elem_of_fmap. split.
    + intros ([k' t] & -> & Hk%elem_of_map_to_list). simpl.
      destruct (inv_reg c s HI _ _ Hk) as (i & g & ? & ? & ? & ?). by exists i, g.
    + intros (i & g & Hi & <- & Hr).
      destruct (HD i g Hi Hr) as (t & _ & Hk).
      exists (g_module g, t). split; [done|]. by apply elem_of_map_to_list.
Qed.

(** C4 does not hold as the specification states it. The job list
    [x; x]: the first copy has finished and deleted the entry
    [x] while the second copy is still running, and the pass prints
    nothing. *)
Lemma snapshot_misses_running_job : ¬ snapshot_exact twice.
Proof.
  intros Hclaim.
  assert (reachable twice first_deleted) as Hs
    by (by eapply state_after_reachable; vm_compute).
  assert (pass twice first_deleted first_deleted_seen) as Hpass
    by (exists []; split; by vm_compute).
  specialize (Hclaim _ _ Hs Hpass).
  vm_compute in Hclaim. by apply Permutation_nil_l in Hclaim.
Qed.

(** C4, as the code has it. Every pair the monitor hands to its callback
    is a name together with a start time that a job of that name stored:
    no entry is torn. During a pass that no [Store] and no [Delete]
    interleaves with, whatever else the clock, [main] and the jobs do
    meanwhile, the registry and the jobs in flight stay as they are, and
    the pass sees exactly the entries of the registry, each once: none
    when no job is in flight and, when no name occurs twice in the job
    list, the names of the jobs in flight, that is, of the jobs between
    their [Store] and their [Delete]; a job that has not stored yet or
    that has run its [Delete] is not among them even while it executes. *)
Theorem snapshot_contents (c : Config) (s : state) :
  reachable c s →
  (∀ k t, (k, t) ∈ seen (mon s) → stored_by (pool s) k t) ∧
  (∀ s', pass c s s' →
         registry s' = registry s ∧ in_flight s' = in_flight s ∧
         seen (mon s') ≡ₚ map_to_list (registry s) ∧
         (in_flight s = [] → seen (mon s') = []) ∧
         (NoDup (modules c) →
          (seen (mon s')).*1 ≡ₚ in_flight s ∧
          ∀ i g, pool s !! i = Some g → registered g = false →
                 g_module g ∉ (seen (mon s')).*1)).
Proof.
  intros Hs. destruct (start_reachable c s Hs) as [_ Hseen]. split; [exact Hseen|].
  intros s' Hpass.
  destruct (pass_registry c s s' Hpass) as (Hperm & Hreg & Hfl).
  split; [done|]. split; [done|]. split; [done|]. split.
  - intros Hnone. apply Permutation_nil_r. rewrite Hperm.
    destruct (map_to_list (registry s)) as [|[k t] l] eqn:E; [done|].
    assert (registry s !! k = Some t) as Hk
      by (apply elem_of_map_to_list; rewrite E; left).
    destruct (inv_reg c s (inv_reachable c s Hs) _ _ Hk) as (i & g & Hi & Hm & Hr & _).
    assert (k ∈ in_flight s) as Hin by (apply in_flight_lookup; by exists i, g).
    rewrite Hnone in Hin. by apply elem_of_nil in Hin.
  - intros Hnd.
    assert ((seen (mon s')).*1 ≡ₚ in_flight s) as Hnames
      by (rewrite Hperm; by apply (registry_in_flight c)).
    split; [done|]. intros i g Hi Hr Hin. rewrite Hnames in Hin.
    apply in_flight_lookup in Hin as (j & h & Hj & Hm & Hrh).
    assert (j = i) as ->
      by (eapply (pool_modules_inj c s); [done|by apply inv_reachable|done..]).
    congruence.
Qed.

Lemma snapshot_contents_witness :
  (seen (mon two_running_seen)).*1 ≡ₚ in_flight two_running.
Proof.
  assert (reachable three_jobs two_running) as Hs
    by (by eapply state_after_reachable; vm_compute).
  assert (pass three_jobs two_running two_running_seen) as Hpass
    by (exists [MonVisit "pstree"; Tick; GCreate 0 None; MonVisit "pslist"];
        split; by vm_compute).
  assert (NoDup (modules three_jobs)) as Hnd
    by (apply (bool_decide_unpack _); by vm_compute).
  destruct (snapshot_contents three_jobs two_running Hs) as [_ Hsnap].
  destruct (Hsnap _ Hpass) as (_ & _ & _ & _ & Hnames).
  exact (proj1 (Hnames Hnd)).
Defined.

(** [Range] is not a snapshot: the pass prints the one name [b], and at no
    moment of the pass did the registry hold just [b]. *)
Example range_is_not_a_snapshot :
  is_Some (run racing (racing_before ++ racing_pass) (init racing)) ∧
  (seen (mon (state_after racing (racing_before ++ racing_pass)))).*1 = ["b"] ∧
  Forall (λ names, 2 ≤ length names) racing_registries.
Proof.
  split; [eexists; by vm_compute|]. split; [by vm_compute|].
  apply (bool_decide_unpack _). by vm_compute.
Qed.

(** ** Duplicate job names *)

Lemma occurrences_cons m x l :
  occurrences m (x :: l) = (if decide (x = m) then 1 else 0) + occurrences m l.
Proof. unfold occurrences. rewrite filter_cons. by case_decide. Qed.

Lemma occurrences_none m l i : occurrences m l = 0 → l !! i = Some m → False.
Proof.
  revert i. induction l as [|x l IH]; intros i Hc Hi; [by destruct i|].
  rewrite occurrences_cons in Hc. destruct i as [|i]; simplify_eq/=.
  - rewrite decide_True in Hc by done. lia.
  - apply (IH i); [lia|done].
Qed.

Lemma occurrences_one m l i j :
  occurrences m l = 1 → l !! i = Some m → l !! j = Some m → i = j.
Proof.
  revert i j. induction l as [|x l IH]; intros i j Hc Hi Hj; [by destruct i|].
  rewrite occurrences_cons in Hc.
  destruct i as [|i], j as [|j]; simplify_eq/=; try done.
  - rewrite decide_True in Hc by done.
    exfalso. apply (occurrences_none m l j); [lia|done].
  - rewrite decide_True in Hc by done.
    exfalso. apply (occurrences_none m l i); [lia|done].
  - f_equal. apply IH; [|done..]. case_decide; [|lia].
    subst x. exfalso. apply (occurrences_none m l i); [lia|done].
Qed.

Lemma occurrences_two m l i j k :
  occurrences m l = 2 → i ≠ j →
  l !! i = Some m → l !! j = Some m → l !! k = Some m → k = i ∨ k = j.
Proof.
  revert i j k. induction l as [|x l IH]; intros i j k Hc Hne Hi Hj Hk;
    [by destruct i|].
  rewrite occurrences_cons in Hc.
  destruct (decide (x = m)) as [->|Hx].
  - destruct i as [|i], j as [|j], k as [|k]; simplify_eq/=; auto.
    + right. f_equal. apply (occurrences_one m l); [lia|done..].
    + left. f_equal. apply (occurrences_one m l); [lia|done..].
    + exfalso. assert (i = j); [|lia]. apply (occurrences_one m l); [lia|done..].
    + exfalso. assert (i = j); [|lia]. apply (occurrences_one m l); [lia|done..].
  - destruct i as [|i], j as [|j], k as [|k]; simplify_eq/=.
    destruct (IH i j k) as [->| ->]; auto with lia.
Qed.

Lemma gone_step c m s l s' : gone m s → exec c l s = Some s' → gone m s'.
Proof.
  intros (Hreg & Hpend & Hcur & Hpool) Hex.
  cases_of Hex l.
  all: unfold gone; simpl.
  all: try (rewrite H in Hcur; simpl in Hcur).
  all: repeat split; try done.
  all: try (apply Forall_insert; [done|]; unfold at_pc; simpl; intros; discriminate).
  - intros Hin. apply Hpend. by right.
  - intros ->%list_elem_of_singleton. apply Hpend. by left.
  - apply not_elem_of_nil.
  - apply Forall_app. split; [done|]. apply Forall_singleton. simpl.
    intros ->. exfalso. apply Hcur. by left.
  - by rewrite H0.
  - apply lookup_insert_None. split; [done|]. intros Hm.
    eapply Forall_lookup_1 in Hpool; [|eassumption]. by apply Hpool.
  - apply lookup_delete_None. by right.
Qed.

Lemma gone_steps c m s s' : gone m s → steps c s s' → gone m s'.
Proof. intros Hg. induction 1; [done|]. by eapply gone_step. Qed.

(** *** Entries that are present *)

Lemma present_init c : InvPresent (init c).
Proof. intros m (i & g & Hi & _). by destruct i. Qed.

Lemma present_move (reg : gmap string Time) (l : list goroutine) i g g' :
  l !! i = Some g → g_module g' = g_module g →
  registered g' = registered g → deleted g' = deleted g →
  present_in reg l → present_in reg (<[i := g']> l).
Proof.
  intros Hi Hm Hr Hd HP m (k & h & Hk & Hhm & Hhr) Hall. apply HP.
  - destruct (decide (k = i)) as [->|Hne].
    + rewrite list_lookup_insert_eq in Hk by (by eapply lookup_lt_Some).
      simplify_eq. exists i, g. by rewrite <- Hm, <- Hr.
    + rewrite list_lookup_insert_ne in Hk by done. by exists k, h.
  - intros k' h' Hk' Hm'. destruct (decide (k' = i)) as [->|Hne].
    + simplify_eq. rewrite <- Hd. apply (Hall i g'); [|congruence].
      apply list_lookup_insert_eq. by eapply lookup_lt_Some.
    + apply (Hall k' h'); [|done]. by rewrite list_lookup_insert_ne.
Qed.

Lemma present_app (reg : gmap string Time) (l : list goroutine) g0 :
  registered g0 = false → present_in reg l → present_in reg (l ++ [g0]).
Proof.
  intros Hr HP m (k & h & Hk & Hm & Hhr) Hall. apply HP.
  - apply lookup_app_Some in Hk as [Hk|[_ Hk]]; [by exists k, h|].
    apply list_lookup_singleton_Some in Hk as [_ <-]. congruence.
  - intros k' h' Hk' Hm'. apply (Hall k' h'); [|done]. by apply lookup_app_l_Some.
Qed.

(** A step of a job of another name changes nothing for the name [m]. *)
Lemma present_other (reg reg' : gmap string Time) (l : list goroutine) i g g' :
  l !! i = Some g → g_module g' = g_module g →
  (∀ m, m ≠ g_module g → reg' !! m = reg !! m) →
  (is_Some (reg' !! g_module g) ∨ deleted g' = true) →
  present_in reg l → present_in reg' (<[i := g']> l).
Proof.
  intros Hi Hm Hreg Hown HP m (k & h & Hk & Hhm & Hhr) Hall.
  destruct (decide (m = g_module g)) as [->|Hne].
  - destruct Hown as [Hsome|Hdel]; [done|].
    assert (deleted g' = false); [|congruence].
    apply (Hall i g'); [|done]. apply list_lookup_insert_eq. by eapply lookup_lt_Some.
  - rewrite Hreg by done. apply HP.
    + destruct (decide (k = i)) as [->|Hki].
      * rewrite list_lookup_insert_eq in Hk by (by eapply lookup_lt_Some).
        exfalso. simplify_eq; congruence.
      * rewrite list_lookup_insert_ne in Hk by done. by exists k, h.
    + intros k' h' Hk' Hm'. destruct (decide (k' = i)) as [->|Hki].
      * exfalso. simplify_eq; congruence.
      * apply (Hall k' h'); [|done]. by rewrite list_lookup_insert_ne.
Qed.

Lemma present_step c s l s' : InvPresent s → exec c l s = Some s' → InvPresent s'.
Proof.
  intros HP Hex. unfold InvPresent in *.
  cases_of Hex l; simpl.
  all: try done.
  all: try (eapply present_move; [eassumption|done| |  |done];
            unfold registered, deleted, at_pc; simpl; by rewrite Hpc).
  - by apply present_app.
  - eapply present_other; [eassumption|done| | |done].
    + intros m Hm. by rewrite lookup_insert_ne.
    + left. rewrite lookup_insert_eq. by eexists.
  - eapply present_other; [eassumption|done| | |done].
    + intros m Hm. by rewrite lookup_delete_ne.
    + by right.
Qed.

Lemma present_reachable c s : reachable c s → InvPresent s.
Proof. induction 1; [apply present_init | by eapply present_step]. Qed.

(** C5 does not hold as the specification states it. The job list
    [x; x]: both jobs have been started; the first one runs its deferred
    [Delete] before the second has stored its start time, and the
    [Store] of the second puts the entry [x] back, so that the duplicate
    that is still running is in the registry. *)
Lemma duplicate_reappears : ¬ duplicate_stays_absent twice.
Proof.
  intros Hclaim.
  assert (reachable twice late_store) as Hs
    by (by eapply state_after_reachable; vm_compute).
  assert (steps twice late_store_deleted late_store_back) as Hsteps
    by (apply (run_steps twice [Tick; GStore 1]); by vm_compute).
  assert (registry late_store_back !! "x" = None) as Hnone.
  { apply (Hclaim "x" late_store late_store_deleted late_store_back 0 1
             {| g_module := "x"; g_pc := AtDelete; g_start := Some 0 |}
             {| g_module := "x"; g_pc := AtStore; g_start := None |}
             {| g_module := "x"; g_pc := AtCreate; g_start := Some 1 |} Hs);
      [lia | by vm_compute.. | exact Hsteps | by vm_compute | by vm_compute]. }
  vm_compute in Hnone. discriminate Hnone.
Qed.

(** A third job of the name has the same effect: admitted when the first
    has returned, it stores the entry [x] while the second still runs. *)
Example third_copy_restores_entry :
  reachable thrice third_stored ∧
  g_pc <$> pool third_stored = [Finished; AtRun; AtCreate] ∧
  registry third_stored !! "x" = Some 1.
Proof.
  split; [by eapply state_after_reachable; vm_compute|]. by vm_compute.
Qed.

(** C5, as the code has it. The job list contains the name [m] exactly
    twice, both jobs have stored their start time, and the first of them
    to terminate (goroutine [i]) runs its deferred [Delete] while the other
    one (goroutine [j]) is still in flight. Before the [Delete] the
    registry holds one entry [m], with the start time of one of the two;
    the [Delete] removes it although goroutine [j] is still in flight, and
    from then on the registry has no entry [m] and every later visit of
    the key [m] by the monitor reports nothing. *)
Theorem duplicate_unregisters_running_job (c : Config) (m : string)
    (s s' s'' : state) (i j : nat) (gi gj : goroutine) :
  occurrences m (modules c) = 2 →
  reachable c s → i ≠ j →
  pool s !! i = Some gi → g_module gi = m → g_pc gi = AtDelete →
  pool s !! j = Some gj → g_module gj = m → registered gj = true →
  exec c (GDelete i) s = Some s' → steps c s' s'' →
  (∃ t, registry s !! m = Some t ∧ (g_start gi = Some t ∨ g_start gj = Some t)) ∧
  (pool s' !! j = Some gj ∧ registry s' !! m = None) ∧
  registry s'' !! m = None ∧
  (∀ s3, exec c (MonVisit m) s'' = Some s3 → seen (mon s3) = seen (mon s'')).
Proof.
  intros Hocc Hs Hne Hi Hmi Hpci Hj Hmj Hrj Hdel Hsteps.
  pose proof (inv_reachable c s Hs) as HI.
  pose proof (inv_jobs c s HI) as Hjobs.
  assert (∀ k, modules c !! k = Some m → k = i ∨ k = j) as Honly.
  { intros k Hk. apply (occurrences_two m (modules c)); try done.
    - rewrite <- Hjobs. apply lookup_app_l_Some. by rewrite list_lookup_fmap, Hi; simpl; f_equal.
    - rewrite <- Hjobs. apply lookup_app_l_Some. by rewrite list_lookup_fmap, Hj; simpl; f_equal. }
  assert (∀ k g, pool s !! k = Some g → g_module g = m → k = i ∨ k = j) as Hpool.
  { intros k g Hk Hm. apply Honly.
    rewrite <- Hjobs. apply lookup_app_l_Some. by rewrite list_lookup_fmap, Hk; simpl; f_equal. }
  assert (m ∉ main_cur (main_pc s) ++ pending s) as Hrest.
  { intros [k Hk]%list_elem_of_lookup.
    assert (modules c !! (length (g_module <$> pool s) + k) = Some m) as Hk'.
    { rewrite <- Hjobs. by rewrite lookup_app_r, Nat.add_comm, Nat.add_sub by lia. }
    apply lookup_lt_Some in Hi, Hj. rewrite length_fmap in Hk'.
    destruct (Honly _ Hk'); lia. }
  assert (∀ k g, pool s !! k = Some g → g_module g = m → g_pc g ≠ AtStore) as Hpast.
  { intros k g Hk Hm.
    destruct (Hpool _ _ Hk Hm) as [-> | ->]; simplify_eq.
    - by rewrite Hpci.
    - unfold registered in Hrj. intros Hpc. by rewrite Hpc in Hrj. }
  split.
  { destruct (present_reachable c s Hs m) as [t Ht].
    - by exists j, gj.
    - intros k g Hk Hm. destruct (Hpool _ _ Hk Hm) as [-> | ->]; simplify_eq.
      + unfold deleted. by rewrite Hpci.
      + revert Hrj. unfold registered, deleted. by destruct (g_pc gj).
    - exists t. split; [done|].
      destruct (inv_reg c s HI _ _ Ht) as (k & g & Hk & Hm & _ & Hstart).
      destruct (Hpool _ _ Hk Hm) as [-> | ->]; simplify_eq; auto. }
  unfold exec, delete_step in Hdel.
  destruct (exited s) eqn:Hexit; [done|].
  assert (goroutine_at AtDelete i s = Some gi) as Hat by by apply goroutine_at_Some.
  rewrite Hat in Hdel. injection Hdel as <-.
  assert (gone m (set_registry (delete (g_module gi) (registry s)) (goto i gi AtDone s)))
    as Hgone.
  { unfold gone; simpl. rewrite Hmi. repeat split.
    - apply lookup_delete_eq.
    - intros Hin. apply Hrest, elem_of_app. by right.
    - intros Hin. apply Hrest, elem_of_app. by left.
    - apply Forall_insert; [|by intros _]. apply Forall_lookup. intros k g. apply Hpast. }
  split.
  { simpl. rewrite Hmi. split; [|apply lookup_delete_eq].
    by rewrite list_lookup_insert_ne. }
  destruct (gone_steps c m _ s'' Hgone Hsteps) as (Hreg & _).
  split; [done|].
  intros s3 Hvisit. unfold exec, visit_step in Hvisit.
  destruct (exited s''); [done|]. rewrite Hreg in Hvisit.
  repeat case_match; by simplify_eq/=.
Qed.

Lemma duplicate_unregisters_running_job_witness :
  is_Some (registry overlap !! "x") ∧ registry first_released !! "x" = None.
Proof.
  assert (occurrences "x" (modules twice) = 2) as Hocc by (by vm_compute).
  assert (reachable twice overlap) as Hs
    by (by eapply state_after_reachable; vm_compute).
  assert (0 ≠ 1) as Hne by lia.
  assert (exec twice (GDelete 0) overlap = Some first_deleted) as Hdel
    by (by vm_compute).
  assert (steps twice first_deleted first_released) as Hsteps
    by (apply (run_steps twice [GDone 0; GRelease 0; Tick]); by vm_compute).
  destruct (duplicate_unregisters_running_job twice "x" overlap first_deleted
       first_released 0 1
       {| g_module := "x"; g_pc := AtDelete; g_start := Some 0 |}
       {| g_module := "x"; g_pc := AtRun; g_start := Some 1 |}
       Hocc Hs Hne eq_refl eq_refl eq_refl eq_refl eq_refl eq_refl Hdel Hsteps)
    as ((t & Ht & _) & _ & Hnone & _).
  split; [by exists t | exact Hnone].
Defined.

(** ** The output path *)

Lemma append_nil s : EmptyString +:+ s = s.
Proof. reflexivity. Qed.

Lemma append_cons a p s : String a p +:+ s = String a (p +:+ s).
Proof. reflexivity. Qed.

Lemma str_prefix_sep sep a s :
  str_prefix (sep_string sep) (String a s) = bool_decide (sep = a).
Proof.
  unfold sep_string. simpl. case_decide; [by rewrite bool_decide_eq_true_2|].
  by rewrite bool_decide_eq_false_2.
Qed.

Lemma last_index_sep sep s i :
  (0 ≤ i)%Z →
  (str_mem sep s = false ∧ last_index_from s (sep_string sep) i = (-1)%Z) ∨
  (∃ pre base, s = pre +:+ String sep base ∧ str_mem sep base = false ∧
     last_index_from s (sep_string sep) i = (i + Z.of_nat (String.length pre))%Z).
Proof.
  revert i. induction s as [|a s IH]; intros i Hi.
  - left. by split.
  - cbn [last_index_from]. rewrite str_prefix_sep.
    destruct (IH (i + 1)%Z ltac:(lia)) as [[Hmem Hr]|(pre & base & -> & Hmem & Hr)].
    + rewrite Hr. simpl. case_bool_decide as Ha.
      * right. exists EmptyString, s. subst a. simpl. split; [done|].
        split; [done|lia].
      * left. by rewrite decide_False.
    + right. exists (String a pre), base. rewrite Hr.
      destruct (0 <=? i + 1 + Z.of_nat (String.length pre))%Z eqn:E; [|lia].
      split; [done|]. split; [done|]. simpl String.length. lia.
Qed.

Lemma slice_from_app pre s :
  slice_from (String.length pre) (pre +:+ s) = s.
Proof.
  induction pre as [|a pre IH]; [by destruct s|].
  by rewrite append_cons.
Qed.

Lemma memoryImageName_basename sep image :
  is_basename sep image (memoryImageName sep image).
Proof.
  unfold memoryImageName, LastIndex.
  destruct (last_index_sep sep image 0 ltac:(lia))
    as [[Hmem ->]|(pre & base & -> & Hmem & ->)].
  - simpl. split; [by destruct image|]. left. by destruct image.
  - replace (Z.to_nat (0 + Z.of_nat (String.length pre) + 1))
      with (String.length (pre +:+ String sep EmptyString)).
    + assert (pre +:+ String sep base = (pre +:+ String sep EmptyString) +:+ base) as Hsplit.
      { clear. induction pre as [|a pre IH]; [done|].
        rewrite !append_cons. by f_equal. }
      rewrite Hsplit at 2. rewrite slice_from_app. split; [done|]. right. by exists pre.
    + clear. induction pre as [|a pre IH]; [done|].
      rewrite append_cons. simpl String.length. lia.
Qed.

Lemma str_mem_app sep pre s : str_mem sep (pre +:+ String sep s) = true.
Proof.
  induction pre as [|a pre IH]; [simpl; by rewrite decide_True|].
  rewrite append_cons. simpl. by case_decide.
Qed.

Lemma after_last_sep_unique sep pre1 pre2 b1 b2 :
  str_mem sep b1 = false → str_mem sep b2 = false →
  pre1 +:+ String sep b1 = pre2 +:+ String sep b2 → b1 = b2.
Proof.
  intros H1 H2. revert pre2.
  induction pre1 as [|a pre1 IH]; intros [|a' pre2] Heq;
    rewrite ?append_nil, ?append_cons in Heq; simplify_eq/=.
  - done.
  - by rewrite str_mem_app in H1.
  - by rewrite str_mem_app in H2.
  - by eapply IH.
Qed.

(** The portion after the last separator is unique. *)
Lemma is_basename_unique sep image b1 b2 :
  is_basename sep image b1 → is_basename sep image b2 → b1 = b2.
Proof.
  intros [H1 [->|[p1 E1]]] [H2 [E2|[p2 E2]]]; subst.
  - done.
  - by rewrite str_mem_app in H1.
  - by rewrite str_mem_app in H2.
  - by eapply after_last_sep_unique.
Qed.

(** The path of the sample job. *)
Example output_path_pslist :
  job_outputFile one_job "pslist" = "out/mem.dd_pslist.csv".
Proof. reflexivity. Qed.

(** ** The external command *)

(** What [exec.Command] makes of the tool's name. *)
Lemma exec_Command_fields sep lookup name arg :
  let cmd := exec_Command sep lookup name arg in
  Args cmd = name :: arg ∧ Stdout cmd = None ∧ Stderr cmd = None ∧
  (is_bare sep name = false → Path cmd = name ∧ Err cmd = None) ∧
  (is_bare sep name = true →
   Err cmd = (lookup name).2 ∧
   Path cmd = if decide ((lookup name).1 = EmptyString) then name
              else (lookup name).1).
Proof.
  unfold exec_Command. destruct (is_bare sep name); [|done].
  by destruct (lookup name) as [lp err].
Qed.



(** C7. The command a job runs has the tool's name followed by
    [-f image -r csv jobName] as its arguments, its standard output
    connected to the job's output file and its standard error to nothing;
    the file that is executed is the tool as it was given when that holds
    a separator, and what [exec.LookPath] makes of a bare name otherwise.
    When the lookup failed, when the process could not be started, when
    it exits with a non-zero status or when a signal ends it, the job
    prints a failure, with the error [cmd.Run] returned; when it exits
    with status zero the job prints its completion with the time elapsed
    since its start. *)
Theorem command_and_outcome (c : Config) (s s' : state) (i : nat)
    (g : goroutine) (r : proc_result) :
  reachable c s → pool s !! i = Some g →
  exec c (GRun i r) s = Some s' →
  let cmd := job_cmd c (g_module g) in
  let name := volatilityPath c in
  procs s' = procs s ++ [(cmd, r)] ∧
  Args cmd = [name; "-f"; memoryImage c; "-r"; "csv"; g_module g] ∧
  Stdout cmd = Some (job_outputFile c (g_module g)) ∧
  Stderr cmd = None ∧
  (is_bare (PathSeparator c) name = false → Path cmd = name ∧ Err cmd = None) ∧
  (is_bare (PathSeparator c) name = true →
   Err cmd = (LookPath c name).2 ∧
   Path cmd = if decide ((LookPath c name).1 = EmptyString) then name
              else (LookPath c name).1) ∧
  (∀ err, Err cmd = Some err → r = LaunchFailed err) ∧
  match r with
  | Exited 0 _ =>
      ∃ start, g_start g = Some start ∧
        console s' = console s ++ [Completed (g_module g) (now s - start)]
  | _ => ∃ err, Run_error r = Some err ∧
                console s' = console s ++ [RunError (g_module g) err]
  end.
Proof.
  intros Hs Hi Hex cmd name.
  pose proof (start_reachable c s Hs) as [Hfresh _].
  unfold exec, run_step in Hex.
  destruct (exited s); [done|].
  destruct (goroutine_at AtRun i s) as [g'|] eqn:Hat; [|done].
  apply goroutine_at_Some in Hat as [Hi' Hpc]. simplify_eq/=.
  eapply Forall_lookup_1 in Hfresh; [|exact Hi].
  destruct (g_start g) as [start|] eqn:Hstart;
    [|destruct Hfresh as [_ Hf]; specialize (Hf eq_refl); congruence].
  destruct (launchable (job_cmd c (g_module g)) r) eqn:Hlaunch; [|done].
  destruct (exec_Command_fields (PathSeparator c) (LookPath c) name
              ["-f"; memoryImage c; "-r"; "csv"; g_module g])
    as (Hargs & _ & _ & Hgiven & Hbare).
  assert (∀ err, Err cmd = Some err → r = LaunchFailed err) as Herr.
  { intros err He. unfold launchable in Hlaunch. fold cmd in Hlaunch.
    rewrite He in Hlaunch. by apply bool_decide_eq_true_1 in Hlaunch. }
  assert (procs s' = procs s ++ [(cmd, r)]) as Hprocs
    by (destruct r; simpl in Hex; repeat case_match; by simplify_eq/=).
  split; [done|]. split; [done|]. split; [done|]. split; [done|].
  split; [done|]. split; [done|]. split; [done|].
  destruct r as [err|code out|signal out]; simpl in Hex.
  - simplify_eq/=. by eexists.
  - destruct (decide (code = 0%Z)) as [->|Hcode]; simplify_eq/=.
    + by eexists.
    + destruct code; [done| |]; eexists; by rewrite decide_False.
  - simplify_eq/=. by eexists.
Qed.

Lemma command_and_outcome_witness :
  procs pslist_ran =
    [({| Path := "/usr/bin/vol";
         Args := ["/usr/bin/vol"; "-f"; "/cases/mem.dd"; "-r"; "csv"; "pslist"];
         Stdout := Some "out/mem.dd_pslist.csv"; Stderr := None; Err := None |},
      Exited 0 "pid,name")] ∧
  console pslist_ran = console pslist_in_run ++ [Completed "pslist" 2].
Proof.
  assert (reachable one_job pslist_in_run) as Hs
    by (by eapply state_after_reachable; vm_compute).
  assert (pool pslist_in_run !! 0 =
          Some {| g_module := "pslist"; g_pc := AtRun; g_start := Some 0 |})
    as Hi by (by vm_compute).
  assert (exec one_job (GRun 0 (Exited 0 "pid,name")) pslist_in_run = Some pslist_ran)
    as Hex by (by vm_compute).
  destruct (command_and_outcome one_job _ _ _ _ _ Hs Hi Hex)
    as (Hprocs & _ & _ & _ & _ & _ & _ & (start & Hstart & Hconsole)).
  simpl in Hstart. injection Hstart as <-.
  split; [exact Hprocs | exact Hconsole].
Defined.

(** A bare tool name: the file that is executed is the one
    [exec.LookPath] found, the first argument is the name as given; when
    [exec.LookPath] finds nothing, [cmd.Run] can only return that error. *)
Example bare_tool_is_looked_up :
  Path (job_cmd bare_tool "pslist") = "/usr/local/bin/vol" ∧
  Args (job_cmd bare_tool "pslist")
    = ["vol"; "-f"; "/cases/mem.dd"; "-r"; "csv"; "pslist"] ∧
  Path (job_cmd missing_tool "pslist") = "vol" ∧
  launchable (job_cmd missing_tool "pslist") (Exited 0 "pid,name") = false ∧
  launchable (job_cmd missing_tool "pslist")
    (LaunchFailed "executable file not found in $PATH") = true.
Proof. by vm_compute. Qed.

(** The error of a process that exits with status 3. *)
Example exit_status_message :
  Run_error (Exited 3 EmptyString) = Some "exit status 3" ∧
  Run_error (Signaled "killed" EmptyString) = Some "signal: killed".
Proof. by vm_compute. Qed.

(** ** The concurrency limit of [main] *)

(** C8. The limit is the number of CPUs minus one, and at least one: for
    every CPU count that [runtime.NumCPU] can report, [numGoroutines] is
    [max(1, numCPU - 1)], and this is the capacity [main] gives to [sem]. *)
Theorem numGoroutines_max (numCPU : Z) :
  (int_min < numCPU ≤ int_max)%Z →
  numGoroutines numCPU = Z.max 1 (numCPU - 1) ∧
  (∀ e, NumCPU e = numCPU →
        Z.of_nat (capacity (config_of e)) = Z.max 1 (numCPU - 1)).
Proof.
  unfold int_min, int_max. intros Hn.
  assert (numGoroutines numCPU = Z.max 1 (numCPU - 1)) as Hmax.
  { unfold numGoroutines, wrap_int.
    assert ((numCPU - 1 + 2 ^ 63) mod 2 ^ 64 - 2 ^ 63 = numCPU - 1)%Z as ->
      by (rewrite Z.mod_small; lia).
    destruct (numCPU - 1 <? 1)%Z eqn:E; lia. }
  split; [done|]. intros e He. simpl. rewrite He, Hmax. lia.
Qed.

Lemma numGoroutines_max_witness :
  numGoroutines 8 = 7%Z ∧ numGoroutines 1 = 1%Z ∧
  capacity (config_of blank_lines_env) = 2.
Proof.
  destruct (numGoroutines_max 8 ltac:(by vm_compute)) as [H8 _].
  destruct (numGoroutines_max 1 ltac:(by vm_compute)) as [H1 _].
  destruct (numGoroutines_max 3 ltac:(by vm_compute)) as [_ H3].
  specialize (H3 blank_lines_env eq_refl).
  split; [exact H8|]. split; [exact H1|].
  apply Nat2Z.inj. exact H3.
Defined.

(** ** Fatal input failures *)

Lemma steps_exited c s s' : is_Some (exited s) → steps c s s' → s' = s.
Proof.
  intros [code Hex]. induction 1 as [|s1 l s2 _ IH Hstep]; [done|].
  subst s1. unfold exec in Hstep. by rewrite Hex in Hstep.
Qed.

(** C9. When the output directory cannot be created or the job list
    cannot be read, the process has exited with status 1 before line
    148: whatever the scheduler does, no goroutine exists, no command is
    run and the registry is empty. *)
Theorem fatal_input_aborts (e : Env) (c : Config) (s : state) :
  is_Some (MkdirAll_error e) ∨ is_Some (Open_error e) ∨ is_Some (scan_error e) →
  steps c (boot e) s →
  exited s = Some 1%Z ∧ pool s = [] ∧ pending s = [] ∧ procs s = [] ∧
  registry s = ∅ ∧ ∃ msg, fatal e = Some msg ∧ console s = [msg].
Proof.
  intros Hfail Hsteps.
  assert (∃ msg, fatal e = Some msg) as [msg Hmsg].
  { unfold fatal. case_decide; [by eexists|].
    destruct (MkdirAll_error e); [by eexists|].
    destruct (Open_error e); [by eexists|].
    destruct (scan_error e); [by eexists|].
    destruct Hfail as [[? ?]|[[? ?]|[? ?]]]; done. }
  apply steps_exited in Hsteps as ->; unfold boot; rewrite Hmsg; simpl; [|by eexists].
  repeat (split; [done|]). by exists msg.
Qed.

Lemma fatal_input_aborts_witness :
  exited (boot mkdir_fails_env) = Some 1%Z ∧ pool (boot mkdir_fails_env) = [] ∧
  console (boot mkdir_fails_env) = [MkdirError "permission denied"].
Proof.
  assert (is_Some (MkdirAll_error mkdir_fails_env) ∨
          is_Some (Open_error mkdir_fails_env) ∨
          is_Some (scan_error mkdir_fails_env)) as Hfail
    by (left; by eexists).
  destruct (fatal_input_aborts mkdir_fails_env (config_of mkdir_fails_env)
              (boot mkdir_fails_env) Hfail (steps_refl _ _))
    as (Hexit & Hpool & _ & _ & _ & msg & Hmsg & Hconsole).
  vm_compute in Hmsg. injection Hmsg as <-.
  split; [exact Hexit|]. split; [exact Hpool | exact Hconsole].
Defined.

(** ** The job list *)

Lemma scan_loop_from acc lines :
  foldl scan_step acc lines = acc ++ filter (λ l, l ≠ EmptyString) lines.
Proof.
  revert acc. induction lines as [|l lines IH]; intros acc; simpl.
  - by rewrite app_nil_r.
  - rewrite IH, filter_cons. unfold scan_step.
    destruct (decide (l = EmptyString)) as [->|Hl].
    + by rewrite decide_False by (by intros ?).
    + rewrite decide_True by done. by rewrite <- app_assoc.
Qed.

(** C10. When the job list has been read, the jobs are the lines that are
    not empty, in the order of the lines and with their repetitions. At
    any time the jobs admitted so far, the one being admitted and the
    ones still to admit are this list, so each is admitted once and in
    order, and all of them when [wg.Wait()] has returned; the registry
    only ever has entries for lines that are not empty. *)
Theorem jobs_are_nonempty_lines (e : Env) (s : state) :
  fatal e = None →
  steps (config_of e) (boot e) s →
  let jobs := filter (λ l, l ≠ EmptyString) (scan_lines e) in
  modules (config_of e) = jobs ∧
  (g_module <$> pool s) ++ main_cur (main_pc s) ++ pending s = jobs ∧
  (∀ k, is_Some (registry s !! k) → k ≠ EmptyString ∧ k ∈ scan_lines e) ∧
  (waited (main_pc s) = true → g_module <$> pool s = jobs).
Proof.
  intros Hok Hsteps jobs. unfold boot in Hsteps. rewrite Hok in Hsteps.
  pose proof (inv_reachable _ _ Hsteps) as HI.
  assert (modules (config_of e) = jobs) as Hjobs.
  { simpl. unfold scan_loop. by rewrite scan_loop_from. }
  pose proof (inv_jobs _ _ HI) as Hsplit. rewrite Hjobs in Hsplit.
  split; [done|]. split; [done|]. split.
  - intros k [t Hk].
    destruct (inv_reg _ _ HI _ _ Hk) as (i & g & Hi & Hm & _).
    assert (k ∈ jobs) as Hin.
    { rewrite <- Hsplit. apply elem_of_app. left.
      apply list_elem_of_fmap. exists g. split; [done|].
      by eapply list_elem_of_lookup_2. }
    by apply list_elem_of_filter in Hin.
  - intros Hw. destruct (inv_waited _ _ HI Hw) as [_ Hpend].
    rewrite <- Hsplit, Hpend. destruct (main_pc s); simplify_eq/=; by rewrite app_nil_r.
Qed.

Lemma jobs_are_nonempty_lines_witness :
  modules (config_of blank_lines_env) = ["pslist"; "pstree"] ∧
  g_module <$> pool blank_lines_done = ["pslist"; "pstree"].
Proof.
  assert (fatal blank_lines_env = None) as Hok by (by vm_compute).
  assert (steps (config_of blank_lines_env) (boot blank_lines_env) blank_lines_done)
    as Hsteps by (by eapply state_after_reachable; vm_compute).
  assert (waited (main_pc blank_lines_done) = true) as Hw by (by vm_compute).
  destruct (jobs_are_nonempty_lines blank_lines_env blank_lines_done Hok Hsteps)
    as (Hjobs & _ & _ & Hall).
  split; [exact Hjobs | exact (Hall Hw)].
Defined.

(** * Further properties *)

(** ** The output path, continued *)

Lemma length_append a b :
  String.length (a +:+ b) = String.length a + String.length b.
Proof.
  induction a as [|x a IH]; [done|].
  rewrite append_cons. simpl. by rewrite IH.
Qed.

Lemma append_assoc a b d : (a +:+ b) +:+ d = a +:+ (b +:+ d).
Proof.
  induction a as [|x a IH]; [done|]. rewrite !append_cons. by f_equal.
Qed.

Lemma append_inj_r a b s : a +:+ s = b +:+ s → a = b.
Proof.
  revert b. induction a as [|x a IH]; intros [|y b] Heq.
  - done.
  - exfalso. apply (f_equal String.length) in Heq.
    rewrite append_nil, append_cons in Heq. simpl in Heq.
    rewrite length_append in Heq. lia.
  - exfalso. apply (f_equal String.length) in Heq.
    rewrite append_nil, append_cons in Heq. simpl in Heq.
    rewrite length_append in Heq. lia.
  - rewrite !append_cons in Heq. injection Heq as -> Heq.
    f_equal. by apply IH.
Qed.

Lemma str_mem_append sep a b :
  str_mem sep (a +:+ b) = str_mem sep a || str_mem sep b.
Proof.
  induction a as [|x a IH]; [done|].
  rewrite append_cons. simpl. by case_decide.
Qed.

(** X1. The slice expression of line 26 is always in range: the index
    [strings.LastIndex] returns is at least -1 and below the length of
    the image path, so [memoryImage[idx+1:]] never panics, and what it
    yields is the image path without its first [idx+1] bytes. *)
Theorem memoryImageName_in_range (sep : ascii) (image : string) :
  let idx := LastIndex image (sep_string sep) in
  (-1 ≤ idx < Z.of_nat (String.length image))%Z ∧
  ∃ pre, image = pre +:+ memoryImageName sep image ∧
         Z.of_nat (String.length pre) = (idx + 1)%Z.
Proof.
  unfold memoryImageName, LastIndex.
  destruct (last_index_sep sep image 0 ltac:(lia))
    as [[Hmem ->]|(pre & base & -> & Hmem & ->)]; simpl.
  - split; [lia|]. exists EmptyString. split; [|done].
    by destruct image.
  - assert (pre +:+ String sep base = (pre +:+ String sep EmptyString) +:+ base)
      as Hsplit by (by rewrite append_assoc).
    assert (String.length (pre +:+ String sep EmptyString) = S (String.length pre))
      as Hlen by (rewrite length_append; simpl; lia).
    rewrite length_append. simpl String.length. split; [lia|].
    exists (pre +:+ String sep EmptyString). split; [|lia].
    replace (Z.to_nat (0 + Z.of_nat (String.length pre) + 1))
      with (String.length (pre +:+ String sep EmptyString)) by lia.
    rewrite Hsplit at 2. by rewrite slice_from_app.
Qed.

Lemma outputFile_inj sep dir image m1 m2 :
  outputFile sep dir image m1 = outputFile sep dir image m2 → m1 = m2.
Proof.
  unfold outputFile. intros Heq.
  apply (inj (String.append dir)) in Heq. injection Heq as Heq.
  apply (inj (String.append _)) in Heq.
  apply (inj (String.append "_")) in Heq.
  by apply append_inj_r in Heq.
Qed.

(** X2. Jobs with different names write to different files: for one output
    directory and one image, the output path determines the job name. *)
Theorem outputFile_distinct (sep : ascii) (dir image m1 m2 : string) :
  m1 ≠ m2 → outputFile sep dir image m1 ≠ outputFile sep dir image m2.
Proof. intros Hne Heq. by apply Hne, (outputFile_inj sep dir image). Qed.

Lemma outputFile_distinct_witness :
  outputFile "/" "out" "/cases/mem.dd" "pslist" ≠
  outputFile "/" "out" "/cases/mem.dd" "pstree".
Proof. apply outputFile_distinct. discriminate. Defined.

(** X3. When neither the job name nor the literal part [_], [.csv] of the
    format holds a path separator, the separator written after
    [outputDir] is the last one of the output path: the file is created
    directly in the output directory, under the name
    [{imageBaseName}_{jobName}.csv]. *)
Theorem outputFile_in_outputDir (sep : ascii) (dir image module : string) :
  str_mem sep module = false → str_mem sep "_.csv" = false →
  is_basename sep (outputFile sep dir image module)
    (memoryImageName sep image +:+ "_" +:+ module +:+ ".csv").
Proof.
  intros Hm Hfmt. split; [|right; by exists dir].
  destruct (memoryImageName_basename sep image) as [Hbase _].
  rewrite !str_mem_append, Hbase, Hm. simpl in *.
  repeat case_decide; done.
Qed.

Lemma outputFile_in_outputDir_witness :
  is_basename "/" (outputFile "/" "out" "/cases/mem.dd" "pslist")
    "mem.dd_pslist.csv".
Proof.
  apply (outputFile_in_outputDir "/" "out" "/cases/mem.dd" "pslist");
    by vm_compute.
Defined.

(** A job name that holds a separator leaves the output directory's top
    level. *)
Example outputFile_nested :
  outputFile "/" "out" "/cases/mem.dd" "a/b" = "out/mem.dd_a/b.csv" ∧
  ¬ is_basename "/" (outputFile "/" "out" "/cases/mem.dd" "a/b") "mem.dd_a/b.csv".
Proof. split; [done|]. by intros [Hmem _]. Qed.

(** ** What the jobs leave behind *)

Lemma out_init c : InvOut c (init c).
Proof.
  split; simpl; done.
Qed.

Lemma holder_insert c (l : list goroutine) i g g' p :
  l !! i = Some g → g_module g' = g_module g →
  (∃ j h, l !! j = Some h ∧ p = job_outputFile c (g_module h)) →
  ∃ j h, <[i := g']> l !! j = Some h ∧ p = job_outputFile c (g_module h).
Proof.
  intros Hi Hm (j & h & Hj & Hp).
  destruct (decide (i = j)) as [->|Hne].
  - simplify_eq. exists j, g'. split; [|by rewrite Hm].
    apply list_lookup_insert_eq. by eapply lookup_lt_Some.
  - exists j, h. by rewrite list_lookup_insert_ne.
Qed.

Lemma holder_app c (l : list goroutine) g p :
  (∃ j h, l !! j = Some h ∧ p = job_outputFile c (g_module h)) →
  ∃ j h, (l ++ [g]) !! j = Some h ∧ p = job_outputFile c (g_module h).
Proof.
  intros (j & h & Hj & Hp). exists j, h. split; [|done].
  by apply lookup_app_l_Some.
Qed.

Ltac out_tally :=
  repeat match goal with H : context [tally _ _] |- _ => revert H end;
  repeat match goal with
  | Hp : pool ?s !! ?i = Some ?g |- context [tally ?P (<[?i := ?g']> (pool ?s))] =>
      let E := fresh in
      pose proof (tally_insert P (pool s) i g g' Hp) as E;
      revert E; generalize (tally P (<[i := g']> (pool s)));
      generalize (tally P (pool s)); intros ? ?
  end;
  rewrite ?tally_app;
  unfold decided_named, decided, at_pc in *; simpl in *;
  repeat match goal with Hpc : g_pc _ = _ |- _ => rewrite Hpc in *; clear Hpc end;
  simpl in *; repeat case_bool_decide; repeat case_decide; simplify_eq/=;
  try congruence; try lia.

Ltac out_console :=
  unfold outcomes in *;
  rewrite ?filter_app, ?filter_cons, ?filter_nil, ?length_app; simpl.

Ltac out_files Hfiles :=
  let p := fresh "p" in let Hp := fresh "Hp" in
  intros p Hp;
  first
    [ apply holder_app; by apply Hfiles
    | eapply holder_insert; [eassumption|done|]; by apply Hfiles
    | match type of Hp with
      | context [<[?q := _]> _ !! _] =>
          destruct (decide (q = p)) as [<-|?];
          [ eexists _, _; split;
            [apply list_lookup_insert_eq; by eapply lookup_lt_Some|reflexivity]
          | rewrite lookup_insert_ne in Hp by done;
            eapply holder_insert; [eassumption|done|]; by apply Hfiles ]
      end ].

Lemma out_step c s l s' : InvOut c s → exec c l s = Some s' → InvOut c s'.
Proof.
  intros [Hnamed Htotal Hprocs Hfiles Hkept] Hex.
  cases_of Hex l.
  all: split; simpl.
  all: try done.
  all: try (intros p Hp; apply lookup_insert_is_Some';  right; by apply Hkept).
  all: try (out_files Hfiles).
  all: try (let m := fresh "m" in intros m; specialize (Hnamed m)).
  all: out_console; out_tally.
Qed.

Lemma out_reachable c s : reachable c s → InvOut c s.
Proof. induction 1; [apply out_init | by eapply out_step]. Qed.

Lemma tally_decided_named m l :
  Forall (λ g, decided g = true) l →
  tally (decided_named m) l = occurrences m (g_module <$> l).
Proof.
  induction 1 as [|g l Hg _ IH]; [done|].
  rewrite fmap_cons, occurrences_cons. simpl. rewrite IH.
  unfold decided_named. rewrite Hg. simpl.
  case_bool_decide; by case_decide.
Qed.

Lemma filter_length_le {A} (P Q : A → Prop) `{∀ x, Decision (P x)}
    `{∀ x, Decision (Q x)} (l : list A) :
  (∀ x, P x → Q x) → length (filter P l) ≤ length (filter Q l).
Proof.
  intros HPQ. induction l as [|x l IH]; [done|].
  rewrite !filter_cons. destruct (decide (P x)) as [HP|HP].
  - rewrite decide_True by auto. simpl. lia.
  - case_decide; simpl; lia.
Qed.

(** When [wg.Wait()] has returned every job has been admitted and every
    [runModule] has returned. *)
Lemma waited_all_returned c s :
  reachable c s → waited (main_pc s) = true →
  g_module <$> pool s = modules c ∧
  Forall (λ g, executing g = false) (pool s) ∧ registry s = ∅.
Proof.
  intros Hs Hw. destruct (inv_reachable c s Hs) as [_ Hwg _ Hreg Hjobs Hwaited _].
  destruct (Hwaited Hw) as [Hwg0 Hpend].
  assert (Forall (λ g, executing g = false) (pool s)) as Hall.
  { apply Forall_lookup. intros i g Hi.
    destruct (executing g) eqn:E; [|done].
    pose proof (tally_pos executing _ _ _ Hi E). lia. }
  split; [|split; [done|]].
  - rewrite <- Hjobs, Hpend. destruct (main_pc s); simplify_eq/=; by rewrite app_nil_r.
  - apply map_empty. intros k. destruct (registry s !! k) as [t|] eqn:E; [|done].
    destruct (Hreg _ _ E) as (i & g & Hi & _ & Hr & _).
    apply registered_executing in Hr.
    eapply Forall_lookup_1 in Hall; [|exact Hi]. congruence.
Qed.

(** X4. Every job prints exactly one terminal line: at any time the
    lines [CreateError], [RunError] and [Completed] naming [m] are as many
    as the jobs named [m] that have got that far, and once [wg.Wait()] has
    returned they are as many as the occurrences of [m] in the job list.
    A command is run at most once per job: the commands run are as many
    as the lines [RunError] and [Completed], and never more than the
    jobs. *)
Theorem one_outcome_per_job (c : Config) (s : state) :
  reachable c s →
  (∀ m, outcomes m (console s) = tally (decided_named m) (pool s)) ∧
  length (procs s) = length (filter (λ e, is_run_outcome e = true) (console s)) ∧
  length (procs s) ≤ length (modules c) ∧
  (waited (main_pc s) = true →
   ∀ m, outcomes m (console s) = occurrences m (modules c)).
Proof.
  intros Hs. destruct (out_reachable c s Hs) as [Hnamed Htotal Hprocs _ _].
  split; [done|]. split; [done|]. split.
  - rewrite Hprocs.
    etrans; [apply (filter_length_le _ (λ e, is_Some (outcome_of e)))|].
    { intros e He. by destruct e. }
    rewrite Htotal. etrans; [apply tally_length|].
    rewrite <- (inv_jobs c s (inv_reachable c s Hs)), !length_app, length_fmap. lia.
  - intros Hw m. destruct (waited_all_returned c s Hs Hw) as (Hpool & Hall & _).
    rewrite Hnamed, tally_decided_named, Hpool; [done|].
    eapply Forall_impl; [exact Hall|]. intros g. unfold executing, decided.
    by destruct (g_pc g).
Qed.

Lemma one_outcome_per_job_witness :
  outcomes "pslist" (console batch_waited) = 1 ∧
  outcomes "badmodule" (console batch_waited) = 1 ∧
  length (procs batch_waited) ≤ 2.
Proof.
  assert (reachable failing_batch batch_waited) as Hs
    by (by eapply state_after_reachable; vm_compute).
  destruct (one_outcome_per_job failing_batch batch_waited Hs)
    as (_ & _ & Hprocs & Hall).
  assert (waited (main_pc batch_waited) = true) as Hw by (by vm_compute).
  split; [exact (Hall Hw "pslist")|]. split; [exact (Hall Hw "badmodule")|].
  exact Hprocs.
Defined.

(** X5. The only files the batch creates or changes are output files of
    jobs of the list: a path whose content differs from what it was when
    the batch started is the output path of some job name; and no file
    that was there when the batch started is ever removed. *)
Theorem only_output_files_change (c : Config) (s : state) :
  reachable c s →
  (∀ p, files s !! p ≠ fs0 c !! p →
        ∃ m, m ∈ modules c ∧ p = job_outputFile c m) ∧
  (∀ p, is_Some (fs0 c !! p) → is_Some (files s !! p)).
Proof.
  intros Hs. destruct (out_reachable c s Hs) as [_ _ _ Hfiles Hkept].
  split; [|done]. intros p Hp.
  destruct (Hfiles p Hp) as (i & g & Hi & ->).
  exists (g_module g). split; [|done].
  rewrite <- (inv_jobs c s (inv_reachable c s Hs)).
  apply elem_of_app. left. apply list_elem_of_fmap. exists g. split; [done|].
  by eapply list_elem_of_lookup_2.
Qed.

Lemma only_output_files_change_witness :
  ∃ m, m ∈ ["pslist"] ∧ "out/mem.dd_pslist.csv" = job_outputFile one_job m.
Proof.
  assert (reachable one_job pslist_ran) as Hs
    by (by eapply state_after_reachable; vm_compute).
  destruct (only_output_files_change one_job pslist_ran Hs) as [Hchanged _].
  apply (Hchanged "out/mem.dd_pslist.csv"). by vm_compute.
Defined.

(** ** How the process ends *)

Lemma after_total_snoc l e :
  after_total (l ++ [e]) =
  match after_total l with
  | Some post => Some (post ++ [e])
  | None => match e with AllCompleted _ => Some [] | _ => None end
  end.
Proof.
  induction l as [|x l IH]; simpl; [by destruct e|]. by destruct x.
Qed.

Lemma exit_init c : InvExit (init c).
Proof. by split. Qed.

Lemma exit_step c s l s' : Inv c s → InvExit s → exec c l s = Some s' → InvExit s'.
Proof.
  intros [_ Hwg _ _ _ Hwaited _] [Hmain Htotal] Hex.
  destruct (returned (main_pc s)) eqn:Hr.
  - assert (wg s = 0) as Hwg0 by (apply Hwaited; by destruct (main_pc s)).
    destruct Htotal as (post & Hpost & Hstatus).
    cases_of Hex l.
    all: try (exfalso;
              assert (executing g = true) as Hx by (unfold executing; by rewrite Hpc);
              pose proof (tally_pos executing _ _ _ Hpool Hx); lia).
    all: split; simpl; rewrite ?Hr.
    all: try done.
    all: try (intros Hq; specialize (Hmain Hq); congruence).
    all: try (by exists post).
    all: try (rewrite after_total_snoc, Hpost; eexists; split; [done|];
              by rewrite forallb_app, Hstatus).
  - cases_of Hex l.
    all: try (exfalso;
              assert (executing g = true) as Hx by (unfold executing; by rewrite Hpc);
              pose proof (tally_pos executing _ _ _ Hpool Hx); lia).
    all: split; simpl; rewrite ?Hr, ?after_total_snoc, ?Htotal.
    all: try done.
    all: try (intros Hq; specialize (Hmain Hq); congruence).
    all: try (by exists []).
Qed.

Lemma exit_reachable c s : reachable c s → InvExit s.
Proof.
  induction 1 as [|s1 l s2 Hs IH Hex]; [apply exit_init|].
  eapply exit_step; [by apply inv_reachable| |]; done.
Qed.

Lemma fatal_is_Some e :
  is_Some (fatal e) ↔
  (flag_p e = EmptyString ∨ flag_i e = EmptyString ∨
   flag_m e = EmptyString ∨ flag_o e = EmptyString) ∨
  is_Some (MkdirAll_error e) ∨ is_Some (Open_error e) ∨ is_Some (scan_error e).
Proof.
  unfold fatal. case_decide as Hflags.
  { split; [by left|by eexists]. }
  destruct (MkdirAll_error e) as [err|].
  { split; [right; left; by eexists|by eexists]. }
  destruct (Open_error e) as [err|].
  { split; [right; right; left; by eexists|by eexists]. }
  destruct (scan_error e) as [err|].
  { split; [right; right; right; by eexists|by eexists]. }
  split; [by intros [? ?]|].
  intros [?|[[? ?]|[[? ?]|[? ?]]]]; done.
Qed.

(** X6. From line 94 on, the exit status of the process is 2 exactly
    when [flag.Parse] rejects the command line, and 1 exactly when the
    command line was parsed and a flag is missing, the output directory
    cannot be created or the job list cannot be read; in both cases, and
    for [-h], it is the status from the start and no job is started.
    The process exits with no other status than 0, 1 and 2.  When it
    exits with status 0 and [-h] was not given, every job of the list
    has been admitted, every [runModule] has returned, whatever happened
    to the jobs, the registry is empty and the total has been printed;
    what was printed after the total are lines of the monitor only. *)
Theorem exit_status (a : Invocation) (s : state) :
  let e := inv_env a in
  steps (config_of e) (launch a) s →
  (is_Some (fatal e) ↔
   (flag_p e = EmptyString ∨ flag_i e = EmptyString ∨
    flag_m e = EmptyString ∨ flag_o e = EmptyString) ∨
   is_Some (MkdirAll_error e) ∨ is_Some (Open_error e) ∨ is_Some (scan_error e)) ∧
  (exited s = Some 2%Z ↔ ∃ err, flag_Parse a = BadFlag err) ∧
  (exited s = Some 1%Z ↔ flag_Parse a = Parsed ∧ is_Some (fatal e)) ∧
  (∀ code, exited s = Some code → code = 0%Z ∨ code = 1%Z ∨ code = 2%Z) ∧
  (flag_Parse a ≠ Parsed ∨ is_Some (fatal e) →
   s = launch a ∧ is_Some (exited s) ∧ pool s = [] ∧ procs s = []) ∧
  (exited s = Some 0%Z →
   flag_Parse a = HelpRequested ∨
   (flag_Parse a = Parsed ∧ fatal e = None ∧
    g_module <$> pool s = modules (config_of e) ∧
    Forall (λ g, executing g = false) (pool s) ∧
    registry s = ∅ ∧
    ∃ post, after_total (console s) = Some post ∧
            forallb is_status_event post = true)).
Proof.
  intros e Hsteps. split; [apply fatal_is_Some|].
  unfold launch in Hsteps. fold e in Hsteps.
  destruct (flag_Parse a) as [| |err] eqn:Hparse; simpl in Hsteps.
  - unfold boot in Hsteps. destruct (fatal e) as [msg|] eqn:Hfatal.
    + apply steps_exited in Hsteps as ->; [|by eexists]. simpl.
      split; [split; [done|by intros [? ?]]|].
      split; [split; [by eauto|done]|].
      split; [intros code [= <-]; auto|].
      split; [|done]. intros _. unfold launch, boot. fold e.
      rewrite Hparse, Hfatal. simpl. split; [done|]. split; [by eexists|done].
    + pose proof (inv_alive _ _ (inv_reachable _ _ Hsteps)) as Halive.
      destruct (exit_reachable _ _ Hsteps) as [_ Htotal].
      split; [split; [|by intros [? ?]]|].
      { intros H2. destruct Halive as [Hn|[H0 _]]; congruence. }
      split; [split; [|by intros [_ [? ?]]]|].
      { intros H1. destruct Halive as [Hn|[H0 _]]; congruence. }
      split.
      { intros code Hcode. left. destruct Halive as [Hn|[H0 _]]; congruence. }
      split; [by intros [?|[? ?]]|].
      intros H0. right. destruct Halive as [Hn|[_ Hpc]]; [congruence|].
      rewrite Hpc in Htotal. simpl in Htotal.
      destruct (waited_all_returned _ _ Hsteps) as (? & ? & ?);
        [by rewrite Hpc|].
      by repeat (split; [done|]).
  - apply steps_exited in Hsteps as ->; [|by eexists]. simpl.
    split; [split; [done|by intros [? ?]]|].
    split; [split; [done|by intros [? _]]|].
    split; [intros code [= <-]; auto|].
    split; [|by left]. intros _. unfold launch. rewrite Hparse. simpl.
    split; [done|]. split; [by eexists|done].
  - apply steps_exited in Hsteps as ->; [|by eexists]. simpl.
    split; [split; [by eauto|done]|].
    split; [split; [done|by intros [? _]]|].
    split; [intros code [= <-]; auto|].
    split; [|done]. intros _. unfold launch. rewrite Hparse. simpl.
    split; [done|]. split; [by eexists|done].
Qed.

Lemma exit_status_witness :
  exited blank_lines_exited = Some 0%Z ∧
  (∃ post, after_total (console blank_lines_exited) = Some post ∧
           forallb is_status_event post = true) ∧
  exited (launch help_run) = Some 0%Z ∧
  exited (launch bad_flag_run) = Some 2%Z ∧
  exited (launch mkdir_fails_run) = Some 1%Z.
Proof.
  assert (steps (config_of blank_lines_env) (launch blank_lines_run)
            blank_lines_exited) as Hsteps
    by (by eapply state_after_reachable; vm_compute).
  assert (exited blank_lines_exited = Some 0%Z) as H0 by (by vm_compute).
  split; [exact H0|]. split; [|split; [|split]].
  - destruct (exit_status blank_lines_run blank_lines_exited Hsteps)
      as (_ & _ & _ & _ & _ & Hdone).
    destruct (Hdone H0) as [Hhelp|(_ & _ & _ & _ & _ & Htotal)];
      [discriminate Hhelp | exact Htotal].
  - by vm_compute.
  - apply (exit_status bad_flag_run (launch bad_flag_run) (steps_refl _ _)).
    by eexists.
  - apply (exit_status mkdir_fails_run (launch mkdir_fails_run) (steps_refl _ _)).
    split; [done|by eexists].
Defined.

(** The monitor can print between the total and the end of the
    process. *)
Example status_after_total :
  after_total (console blank_lines_exited) = Some [StatusHeader; StatusFooter].
Proof. by vm_compute. Qed.

(** With a limit of at least one, some interleaving leads from every
    state of the running process to the return of [main]. *)
Lemma batch_completes c s :
  1 ≤ capacity c → reachable c s → exited s = None →
  ∃ s', steps c s s' ∧ exited s' = Some 0%Z.
Proof.
  intros Hcap Hs Hexit.
  destruct (batch_can_complete c s Hcap Hs Hexit) as (s1 & Hsteps & Hw).
  assert (reachable c s1) as Hs1 by (by eapply steps_trans).
  destruct (exit_reachable c s1 Hs1) as [Hpc _].
  destruct (inv_alive c s1 (inv_reachable c s1 Hs1)) as [Hn|[H0 _]];
    [|by exists s1].
  destruct (main_pc s1) eqn:E; try done.
  - exists (set_exited 0 (set_main_pc MExit
              (set_main_pc MReturn (print (AllCompleted (now s1)) s1)))).
    split; [|done].
    eapply (steps_step c s (set_main_pc MReturn (print (AllCompleted (now s1)) s1))
              RuntimeExit).
    + eapply (steps_step c s s1 MainReport); [exact Hsteps|].
      unfold exec, report_step. by rewrite Hn, E.
    + unfold exec, runtime_exit_step. simpl. by rewrite Hn.
  - exists (set_exited 0 (set_main_pc MExit s1)). split; [|done].
    eapply (steps_step c s s1 RuntimeExit); [exact Hsteps|].
    unfold exec, runtime_exit_step. by rewrite Hn, E.
  - specialize (Hpc eq_refl). congruence.
Qed.

(** X7. The batch cannot get stuck: whatever the number of CPUs, the limit
    [main] computes is at least one, and from every state the process can
    be in while it runs, whatever has failed so far, some interleaving
    leads to the return of [main] with exit status 0. *)
Theorem batch_never_stuck (e : Env) (s : state) :
  fatal e = None → steps (config_of e) (boot e) s → exited s = None →
  1 ≤ capacity (config_of e) ∧
  ∃ s', steps (config_of e) s s' ∧ exited s' = Some 0%Z.
Proof.
  intros Hok Hsteps Hexit. unfold boot in Hsteps. rewrite Hok in Hsteps.
  assert (1 ≤ capacity (config_of e)) as Hcap.
  { simpl. unfold numGoroutines. case_match; lia. }
  split; [done|]. by apply batch_completes.
Qed.

Lemma batch_never_stuck_witness :
  ∃ s', steps (config_of blank_lines_env)
          (state_after (config_of blank_lines_env)
             [MainAcquire; MainAdd; MainGo; GStore 0; GCreate 0 (Some "permission denied")])
          s' ∧ exited s' = Some 0%Z.
Proof.
  apply (batch_never_stuck blank_lines_env).
  - by vm_compute.
  - by eapply state_after_reachable; vm_compute.
  - by vm_compute.
Defined.

(** ** No statement is executed twice *)

Lemma total_rank_app l g : total_rank (l ++ [g]) = total_rank l + rank g.
Proof.
  unfold total_rank. rewrite fmap_app, sum_list_with_app. simpl. lia.
Qed.

Lemma budget_step c s l s' :
  Inv c s → exec c l s = Some s' → is_job_label l = true →
  budget s' < budget s.
Proof.
  intros [_ Hwg _ _ _ _ _] Hex Hjob.
  cases_of Hex l.
  all: try (exfalso;
            assert (executing g = true) as Hx by (unfold executing; by rewrite Hpc);
            pose proof (tally_pos executing _ _ _ Hpool Hx); lia).
  all: unfold budget; simpl.
  all: try match goal with
       | H : main_pc _ = _ |- _ => rewrite H; simpl
       end.
  all: try match goal with
       | H : pending _ = _ |- _ => rewrite H; simpl
       end.
  all: rewrite ?total_rank_app; simpl; try lia.
  all: try match goal with
       | Hp : pool ?s0 !! ?j = Some ?g0 |- context [total_rank (<[?j := ?g']> (pool ?s0))] =>
           pose proof (total_rank_insert (pool s0) j g0 g' Hp) as Hr;
           revert Hr; generalize (total_rank (<[j := g']> (pool s0)));
           generalize (total_rank (pool s0)); unfold rank, at_pc; simpl;
           rewrite Hpc; lia
       end.
  unfold rank. simpl. lia.
Qed.

Lemma budget_other c s l s' :
  exec c l s = Some s' → is_job_label l = false → budget s' = budget s.
Proof.
  intros Hex Hjob. cases_of Hex l; try done.
  unfold budget. simpl.
  match goal with H : main_pc _ = _ |- _ => by rewrite H end.
Qed.

Lemma budget_run c ls s s' :
  reachable c s → run c ls s = Some s' →
  length (filter (λ l, is_job_label l = true) ls) + budget s' ≤ budget s.
Proof.
  revert s. induction ls as [|l ls IH]; intros s Hs Hrun; simplify_eq/=; [lia|].
  destruct (exec c l s) as [s1|] eqn:Hex; [|done].
  assert (reachable c s1) as Hs1 by (by eapply steps_step).
  specialize (IH s1 Hs1 Hrun). rewrite filter_cons.
  destruct (is_job_label l) eqn:Hl.
  - rewrite decide_True by done. simpl.
    pose proof (budget_step c s l s1 (inv_reachable c s Hs) Hex Hl). lia.
  - rewrite decide_False by done.
    pose proof (budget_other c s l s1 Hex Hl). lia.
Qed.

(** X8. The batch does a bounded amount of work: in every execution the
    statements of [main] and of the jobs that are executed are at most
    eleven for every job of the list and two more, because no job is
    admitted twice and no statement of [runModule] is repeated; only
    the monitor and the clock can go on for ever. *)
Theorem bounded_work (c : Config) (ls : list label) (s : state) :
  run c ls (init c) = Some s →
  length (filter (λ l, is_job_label l = true) ls) + budget s
  ≤ 11 * length (modules c) + 2.
Proof.
  intros Hrun.
  pose proof (budget_run c ls (init c) s (steps_refl _ _) Hrun) as Hle.
  unfold budget at 2 in Hle. simpl in Hle.
  unfold total_rank in Hle. simpl in Hle. lia.
Qed.

Lemma bounded_work_witness :
  length (filter (λ l, is_job_label l = true) racing_before) + budget
    (state_after racing racing_before) ≤ 11 * 3 + 2.
Proof.
  apply (bounded_work racing racing_before). by vm_compute.
Defined.

(** The bound is reached by a batch in which every command is run. *)
Example bounded_work_reached :
  let ls := job_trace 0 (Exited 0 "pid,name") ++ job_trace 1 (LaunchFailed "not found")
            ++ [MainWait; MainReport] in
  is_Some (run (config_of blank_lines_env) ls (init (config_of blank_lines_env))) ∧
  length (filter (λ l, is_job_label l = true) ls)
  = 11 * length (modules (config_of blank_lines_env)) + 2.
Proof. split; [eexists; by vm_compute|by vm_compute]. Qed.

(** ** The monitor is an observer *)

Lemma goroutine_at_erase p i s : goroutine_at p i (erase s) = goroutine_at p i s.
Proof. done. Qed.

(** A statement of [main] or of a job, and a tick of the clock, do the
    same with and without the monitor. *)
Lemma exec_erase_job c l s :
  is_monitor_label l = false → exec c l (erase s) = erase <$> exec c l s.
Proof.
  intros Hl. unfold exec. simpl. destruct (exited s); [done|].
  destruct l; try discriminate Hl; simpl.
  all: unfold acquire_step, add_step, go_step, wait_step, report_step,
         runtime_exit_step, store_step, create_step, print_step, run_step,
         close_step, delete_step, done_step, release_step.
  all: rewrite ?goroutine_at_erase; simpl.
  all: repeat case_match; simplify_eq/=; try done.
  all: f_equal; unfold erase, print, set_mon, set_console; simpl.
  all: by rewrite filter_snoc_True.
Qed.

(** A statement of the monitor changes nothing but the monitor and its
    own lines. *)
Lemma exec_erase_monitor c l s s' :
  is_monitor_label l = true → exec c l s = Some s' → erase s' = erase s.
Proof.
  intros Hl Hex. cases_of Hex l; try done.
  all: unfold erase; simpl; try done.
  all: rewrite filter_snoc_False; done.
Qed.

(** Every execution of [main], the jobs and the clock that is possible
    without the monitor is possible whatever the monitor is doing, with
    the same outcome. *)
Lemma run_unerase c ls s s1 :
  Forall (λ l, is_monitor_label l = false) ls →
  run c ls (erase s) = Some s1 →
  ∃ s', run c ls s = Some s' ∧ erase s' = s1.
Proof.
  intros Hall. revert s. induction Hall as [|l ls Hl _ IH]; intros s Hrun; simpl in *.
  - exists s. by simplify_eq.
  - rewrite (exec_erase_job c l s Hl) in Hrun.
    destruct (exec c l s) as [s2|]; [|done]. simpl in Hrun. by apply IH.
Qed.

(** X9. In every interleaving the monitor only observes.  Take any
    execution and leave out the statements of [monitorKeyPress]: what is
    left is an execution too, and it ends in the same registry,
    goroutines, semaphore, WaitGroup, files, commands, clock and exit
    status, and prints the same lines but for the monitor's own.
    Conversely, whatever the monitor is doing, also in the middle of a
    pass, a statement of [main] or of a job is enabled exactly when it is
    enabled without the monitor, and has the same effect; so every
    execution that is possible without the monitor is possible with it,
    and a statement that could be executed before a statement of the
    monitor can be executed right after it, to the same effect. *)
Theorem monitor_only_observes (c : Config) (s : state) :
  (∀ ls s', run c ls s = Some s' →
     run c (filter (λ l, is_monitor_label l = false) ls) (erase s)
     = Some (erase s')) ∧
  (∀ l, is_monitor_label l = false →
     exec c l (erase s) = erase <$> exec c l s) ∧
  (∀ ls s1, Forall (λ l, is_monitor_label l = false) ls →
     run c ls (erase s) = Some s1 →
     ∃ s', run c ls s = Some s' ∧ erase s' = s1) ∧
  (∀ m l s1 s2, is_monitor_label m = true → is_monitor_label l = false →
     exec c m s = Some s1 → exec c l s = Some s2 →
     ∃ s3, exec c l s1 = Some s3 ∧ erase s3 = erase s2).
Proof.
  split; [|split; [|split]].
  - intros ls. revert s.
    induction ls as [|l ls IH]; intros s s' Hrun; simplify_eq/=; [done|].
    destruct (exec c l s) as [s1|] eqn:Hex; [|done].
    rewrite filter_cons. destruct (is_monitor_label l) eqn:Hl.
    + rewrite decide_False by done.
      rewrite <- (exec_erase_monitor c l s s1 Hl Hex). by apply IH.
    + rewrite decide_True by done. simpl.
      rewrite (exec_erase_job c l s Hl), Hex. simpl. by apply IH.
  - intros l Hl. by apply exec_erase_job.
  - intros ls s1. apply run_unerase.
  - intros m l s1 s2 Hm Hl Hexm Hexl.
    pose proof (exec_erase_job c l s1 Hl) as H1.
    rewrite (exec_erase_monitor c m s s1 Hm Hexm) in H1.
    rewrite (exec_erase_job c l s Hl), Hexl in H1. simpl in H1.
    destruct (exec c l s1) as [s3|]; [|done]. simpl in H1.
    exists s3. split; [done|]. congruence.
Qed.

Lemma monitor_only_observes_witness :
  run racing (filter (λ l, is_monitor_label l = false) (racing_before ++ racing_pass))
    (init racing)
  = Some (erase (state_after racing (racing_before ++ racing_pass))).
Proof.
  apply (monitor_only_observes racing (init racing)).
  by vm_compute.
Defined.

(** In the middle of a pass a job can store: the monitor holds no lock a
    job waits for. *)
Example store_during_pass :
  ranging (mon (state_after racing (racing_before ++ [MonRead None; MonVisit "c"])))
  = true ∧
  is_Some (exec racing (GStore 2)
             (state_after racing (racing_before ++ [MonRead None; MonVisit "c"]))).
Proof. split; [by vm_compute|]. eexists. by vm_compute. Qed.

(** ** What the monitor prints *)

Lemma shape_snoc l e : status_shape (l ++ [e]) = shape_step (status_shape l) e.
Proof. unfold status_shape. by rewrite foldl_app. Qed.

Lemma last_pass_snoc l e : last_pass (l ++ [e]) = pass_step (last_pass l) e.
Proof. unfold last_pass. by rewrite foldl_app. Qed.

Lemma shape_reachable c s :
  reachable c s →
  status_shape (console s) = Some (ranging (mon s)) ∧
  last_pass (console s) = (seen (mon s)).*1.
Proof.
  induction 1 as [|s1 l s2 _ [IHshape IHpass] Hex]; [done|].
  cases_of Hex l.
  all: simpl; rewrite ?shape_snoc, ?last_pass_snoc, ?IHshape, ?IHpass; simpl.
  all: try done.
  all: try (by rewrite H).
  all: try (by rewrite H0).
  all: rewrite ?fmap_app; simpl; try done.
Qed.

(** Within a pass [Range] visits no key twice, and the callback has only
    seen keys that were visited. *)
Lemma visits_reachable c s :
  reachable c s →
  NoDup (visited (mon s)) ∧ NoDup (seen (mon s)).*1 ∧
  (∀ k, k ∈ (seen (mon s)).*1 → k ∈ visited (mon s)).
Proof.
  induction 1 as [|s1 l s2 _ (IHv & IHs & IHsub) Hex].
  { simpl. split; [constructor|]. split; [constructor|]. by intros k ?%elem_of_nil. }
  cases_of Hex l; simpl; try done.
  - split; [constructor|]. split; [constructor|]. by intros k ?%elem_of_nil.
  - split; [|split].
    + apply NoDup_app. split; [done|]. split; [|apply NoDup_singleton].
      by intros x Hx ->%list_elem_of_singleton.
    + rewrite fmap_app. apply NoDup_app. split; [done|].
      split; [|apply NoDup_singleton].
      intros x Hx ->%list_elem_of_singleton. auto.
    + intros x. rewrite fmap_app, !elem_of_app. intros [Hx|Hx]; auto.
  - split; [|split; [done|]].
    + apply NoDup_app. split; [done|]. split; [|apply NoDup_singleton].
      by intros x Hx ->%list_elem_of_singleton.
    + intros x Hx. apply elem_of_app. auto.
Qed.

(** X10. The monitor's output is bracketed: on the console every header
    is followed by status lines and then its footer before the next
    header, no status line stands outside such a bracket, and a header is
    waiting for its footer exactly while a pass is going on.  The status
    lines printed since the last header name, in this order, the entries
    that [Range] has handed to the callback, and no name twice, even when
    two jobs of one name are running. *)
Theorem status_output_shape (c : Config) (s : state) :
  reachable c s →
  status_shape (console s) = Some (ranging (mon s)) ∧
  last_pass (console s) = (seen (mon s)).*1 ∧
  NoDup (last_pass (console s)).
Proof.
  intros Hs. destruct (shape_reachable c s Hs) as [Hshape Hpass].
  destruct (visits_reachable c s Hs) as (_ & Hnd & _).
  split; [done|]. split; [done|]. by rewrite Hpass.
Qed.

Lemma status_output_shape_witness :
  status_shape (console two_running_seen) = Some false ∧
  last_pass (console two_running_seen) = ["pstree"; "pslist"] ∧
  NoDup (last_pass (console two_running_seen)).
Proof.
  apply (status_output_shape three_jobs two_running_seen).
  by eapply state_after_reachable; vm_compute.
Defined.

(** ** An empty job list *)

(** X11. A job list without a line that is not empty (an empty file, or
    blank lines only) starts nothing: whatever the scheduler does, no
    goroutine exists, no token is taken, no command is run, no file is
    touched and no job line is printed. *)
Theorem blank_job_list (e : Env) (s : state) :
  fatal e = None → Forall (λ l, l = EmptyString) (scan_lines e) →
  steps (config_of e) (boot e) s →
  pool s = [] ∧ sem s = 0 ∧ wg s = 0 ∧ registry s = ∅ ∧ procs s = [] ∧
  files s = env_fs e ∧ ∀ m, outcomes m (console s) = 0.
Proof.
  intros Hok Hblank Hsteps. unfold boot in Hsteps. rewrite Hok in Hsteps.
  pose proof (inv_reachable _ _ Hsteps) as [Hsem Hwg _ Hreg Hjobs _ _].
  pose proof (out_reachable _ _ Hsteps) as [Hnamed Htotal Hprocs Hfiles _].
  assert (modules (config_of e) = []) as Hnone.
  { simpl. unfold scan_loop. rewrite scan_loop_from. simpl.
    induction Hblank as [|l ls -> _ IH]; [done|].
    by rewrite filter_cons, decide_False by (by intros ?). }
  rewrite Hnone in Hjobs.
  apply app_eq_nil in Hjobs as [Hpool [Hcur _]%app_eq_nil].
  apply fmap_nil_inv in Hpool. rewrite Hpool in *. simpl in *.
  assert (main_tokens (main_pc s) = 0 ∧ main_added (main_pc s) = 0) as [Ht Ha]
    by (by destruct (main_pc s)).
  split; [done|]. split; [lia|]. split; [lia|]. split; [|split; [|split]].
  - apply map_empty. intros k. destruct (registry s !! k) as [t|] eqn:E; [|done].
    destruct (Hreg _ _ E) as (i & g & Hi & _). by destruct i.
  - apply length_zero_iff_nil. rewrite Hprocs.
    pose proof (filter_length_le (λ e0, is_run_outcome e0 = true)
                  (λ e0, is_Some (outcome_of e0)) (console s)) as Hle.
    rewrite Htotal in Hle. apply Nat.le_0_r, Hle. intros e0 He0. by destruct e0.
  - apply map_eq. intros p. destruct (decide (files s !! p = env_fs e !! p)) as [|Hne];
      [done|].
    destruct (Hfiles p Hne) as (i & g & Hi & _). by destruct i.
  - intros m. by rewrite Hnamed.
Qed.

Lemma blank_job_list_witness :
  pool blank_only_state = [] ∧ procs blank_only_state = [] ∧
  files blank_only_state = ∅.
Proof.
  assert (fatal blank_only_env = None) as Hok by (by vm_compute).
  assert (Forall (λ l, l = EmptyString) (scan_lines blank_only_env)) as Hblank
    by (by repeat constructor).
  assert (steps (config_of blank_only_env) (boot blank_only_env) blank_only_state)
    as Hsteps by (by eapply state_after_reachable; vm_compute).
  destruct (blank_job_list blank_only_env _ Hok Hblank Hsteps)
    as (Hpool & _ & _ & _ & Hprocs & Hfiles & _).
  split; [exact Hpool|]. split; [exact Hprocs | exact Hfiles].
Defined.

(** ** What the output files hold *)

Lemma append_nil_r s : s +:+ EmptyString = s.
Proof. induction s as [|a s IH]; [done|]. rewrite append_cons. by f_equal. Qed.

(** Written over an empty file, the bytes are the file. *)
Lemma overlay_empty out : overlay out EmptyString = out.
Proof.
  unfold overlay.
  assert (slice_from (String.length out) EmptyString = EmptyString) as ->
    by (by destruct (String.length out)).
  apply append_nil_r.
Qed.

Lemma procs_init c : InvProcs c (init c).
Proof.
  split.
  - intros cmd r Hin. by apply elem_of_nil in Hin.
  - intros i g Hi. by destruct i.
Qed.

Lemma procs_holder_insert c (l : list goroutine) (fs fs' : gmap string string)
    i g g' cmd r :
  l !! i = Some g → g_module g' = g_module g →
  (has_run g = true →
   has_run g' = true ∧
   fs' !! job_outputFile c (g_module g) = fs !! job_outputFile c (g_module g)) →
  (∀ j h, j ≠ i → l !! j = Some h →
          fs' !! job_outputFile c (g_module h) = fs !! job_outputFile c (g_module h)) →
  (∃ i0 g0, l !! i0 = Some g0 ∧ cmd = job_cmd c (g_module g0) ∧
            has_run g0 = true ∧
            ∀ out, written r = Some out →
                   fs !! job_outputFile c (g_module g0) = Some out) →
  ∃ i0 g0, <[i := g']> l !! i0 = Some g0 ∧ cmd = job_cmd c (g_module g0) ∧
           has_run g0 = true ∧
           ∀ out, written r = Some out →
                  fs' !! job_outputFile c (g_module g0) = Some out.
Proof.
  intros Hi Hm Hsame Hother (i0 & g0 & Hi0 & Hcmd & Hrun & Hout).
  destruct (decide (i0 = i)) as [->|Hne].
  - simplify_eq. destruct (Hsame Hrun) as [Hrun' Hfs]. exists i, g'.
    split; [apply list_lookup_insert_eq; by eapply lookup_lt_Some|].
    rewrite Hm. split; [done|]. split; [done|].
    intros out Hr. rewrite Hfs. by eapply Hout.
  - exists i0, g0. split; [by rewrite list_lookup_insert_ne|].
    split; [done|]. split; [done|].
    intros out Hr. rewrite (Hother i0 g0) by done. by eapply Hout.
Qed.

Lemma created_insert c (l : list goroutine) (fs fs' : gmap string string) i g g' :
  l !! i = Some g → g_module g' = g_module g →
  (created g' = true →
   fs' !! job_outputFile c (g_module g) = Some EmptyString) →
  (∀ j h, j ≠ i → l !! j = Some h →
          fs' !! job_outputFile c (g_module h) = fs !! job_outputFile c (g_module h)) →
  (∀ j h, l !! j = Some h → created h = true →
          fs !! job_outputFile c (g_module h) = Some EmptyString) →
  ∀ j h, <[i := g']> l !! j = Some h → created h = true →
         fs' !! job_outputFile c (g_module h) = Some EmptyString.
Proof.
  intros Hi Hm Hnew Hother Hold j h Hj Hc.
  destruct (decide (j = i)) as [->|Hne].
  - rewrite list_lookup_insert_eq in Hj by (by eapply lookup_lt_Some).
    simplify_eq. rewrite Hm. by apply Hnew.
  - rewrite list_lookup_insert_ne in Hj by done.
    rewrite (Hother j h) by done. by eapply Hold.
Qed.

Lemma procs_step c s l s' :
  NoDup (modules c) → Inv c s → InvProcs c s →
  exec c l s = Some s' → InvProcs c s'.
Proof.
  intros Hnd HI [HP HE] Hex.
  assert (∀ i j g h, j ≠ i → pool s !! i = Some g → pool s !! j = Some h →
                     job_outputFile c (g_module h) ≠ job_outputFile c (g_module g))
    as Hpaths.
  { intros i j g h Hne Hi Hj Heq. apply Hne.
    apply (pool_modules_inj c s j i h g Hnd HI Hj Hi).
    by eapply outputFile_inj. }
  cases_of Hex l.
  all: split; [intros cmd r Hin|]; simpl in *.
  all: try (by apply HP).
  all: try (by apply HE).
  all: try (apply elem_of_app in Hin as [Hin|Hin%list_elem_of_singleton];
            [|simplify_eq;
              eexists i, _; split;
              [apply list_lookup_insert_eq; by eapply lookup_lt_Some|];
              split; [done|]; split; [done|];
              intros ? ?; simplify_eq/=;
              rewrite ?lookup_insert_eq, ?(HE i g Hpool), ?overlay_empty;
              first [done | unfold created; by rewrite Hpc]]).
  all: try (eapply (procs_holder_insert c (pool s) (files s));
            [eassumption|done| | |by apply HP];
            [ unfold has_run, at_pc; simpl; rewrite Hpc;
              first [discriminate | (intros _; by split)]
            | intros j h Hne Hj;
              first [ done
                    | rewrite lookup_insert_ne; [done|];
                      intros Heq; by eapply (Hpaths i j g h) ] ]).
  all: try (eapply (created_insert c (pool s) (files s));
            [eassumption|done| | |exact HE];
            [ unfold created, at_pc; simpl;
              first [ discriminate
                    | intros _; by rewrite lookup_insert_eq
                    | intros _; apply (HE i g Hpool); unfold created; by rewrite Hpc ]
            | intros j h Hne Hj;
              first [ done
                    | rewrite lookup_insert_ne; [done|];
                      intros Heq; by eapply (Hpaths i j g h) ] ]).
  - destruct (HP cmd r Hin) as (i0 & g0 & Hi0 & ?).
    exists i0, g0. split; [by apply lookup_app_l_Some|done].
  - intros i g [Hi|[_ Hi]]%lookup_app_Some; [by apply (HE i)|].
    apply list_lookup_singleton_Some in Hi as [_ <-]. discriminate.
Qed.

Lemma procs_reachable c s : NoDup (modules c) → reachable c s → InvProcs c s.
Proof.
  intros Hnd. induction 1 as [|s1 l s2 Hs IH Hex]; [apply procs_init|].
  eapply procs_step; [done|by apply inv_reachable|done|done].
Qed.

(** X12. When no name occurs twice in the job list, the output file of a
    job whose process was launched holds exactly what that process wrote
    to its standard output, from the return of [cmd.Run] on: no other job
    and no later statement writes to it. *)
Theorem output_file_holds_stdout (c : Config) (s : state) (cmd : Cmd)
    (code : Z) (out : string) :
  NoDup (modules c) → reachable c s → (cmd, Exited code out) ∈ procs s →
  ∃ m, m ∈ modules c ∧ cmd = job_cmd c m ∧
       files s !! job_outputFile c m = Some out.
Proof.
  intros Hnd Hs Hin.
  destruct (procs_reachable c s Hnd Hs) as [HP _].
  destruct (HP cmd _ Hin) as (i & g & Hi & Hcmd & _ & Hout).
  exists (g_module g). split; [|split; [done|by apply Hout]].
  rewrite <- (inv_jobs c s (inv_reachable c s Hs)).
  apply elem_of_app. left. apply list_elem_of_fmap. exists g. split; [done|].
  by eapply list_elem_of_lookup_2.
Qed.


Lemma output_file_holds_stdout_witness :
  ∃ m, m ∈ ["pslist"] ∧ job_cmd one_job "pslist" = job_cmd one_job m ∧
       files pslist_ran !! job_outputFile one_job m = Some "pid,name".
Proof.
  apply (output_file_holds_stdout one_job pslist_ran (job_cmd one_job "pslist") 0).
  - apply (bool_decide_unpack _). by vm_compute.
  - by eapply state_after_reachable; vm_compute.
  - assert (procs pslist_ran = [(job_cmd one_job "pslist", Exited 0 "pid,name")])
      as -> by (by vm_compute).
    by left.
Defined.

(** With the job list [x; x] both jobs write to one file, each through
    its own descriptor: the file holds neither what the first process
    wrote nor what the second one did, but the bytes of the second laid
    over those of the first. *)
Example duplicate_output_overwritten :
  let s := state_after twice (overlap_trace ++ [GRun 1 (Exited 0 "second")]) in
  (job_cmd twice "x", Exited 0 "pid,name") ∈ procs s ∧
  (job_cmd twice "x", Exited 0 "second") ∈ procs s ∧
  files s !! job_outputFile twice "x" = Some "secondme" ∧
  size (dom (files s)) = 1.
Proof.
  intros s.
  assert (procs s = [(job_cmd twice "x", Exited 0 "pid,name");
                     (job_cmd twice "x", Exited 0 "second")])
    as -> by (by vm_compute).
  split; [by left|]. split; [right; by left|]. by vm_compute.
Qed.

(** ** The output file of a job *)




(** ** Elapsed times *)

Lemma clock_init c : InvClock (init c).
Proof.
  split; simpl.
  - constructor.
  - apply map_Forall_empty.
  - constructor.
  - repeat constructor.
Qed.

Lemma clock_step c s l s' : InvClock s → exec c l s = Some s' → InvClock s'.
Proof.
  intros [Hpool Hreg Hseen Hcons] Hex.
  cases_of Hex l.
  all: split; simpl; try done.
  all: try (apply Forall_app; split; [done|]; repeat constructor; simpl; lia).
  all: try (apply Forall_insert; [done|]; unfold at_pc; simpl;
            eapply Forall_lookup_1 in Hpool; [|eassumption]; done).
  - apply Forall_app. split; [done|]. by repeat constructor.
  - apply Forall_insert; [done|]. simpl. by intros t [= <-].
  - apply map_Forall_insert_2; [lia|done].
  - by apply map_Forall_delete.
  - apply Forall_app. split; [done|]. repeat constructor. simpl.
    by apply (Hreg k t).
  - eapply Forall_impl; [exact Hpool|]. simpl. intros g Hg t Ht.
    specialize (Hg t Ht). lia.
  - eapply map_Forall_impl; [exact Hreg|]. simpl. intros. lia.
  - eapply Forall_impl; [exact Hseen|]. simpl. intros. lia.
  - eapply Forall_impl; [exact Hcons|]. simpl. intros. lia.
Qed.

Lemma clock_reachable c s : reachable c s → InvClock s.
Proof. induction 1; [apply clock_init | by eapply clock_step]. Qed.

(** X13. No start time lies in the future, so the times printed are true
    differences: the status line of a key shows the clock minus the start
    stored under that key, the completion line of a job shows the clock
    minus the job's own start, and no time printed so far exceeds the time
    since the batch started, which is the total printed at the end. *)
Theorem elapsed_times (c : Config) (s : state) :
  reachable c s →
  (∀ k t s', registry s !! k = Some t → exec c (MonVisit k) s = Some s' →
     ∃ r, console s' = console s ++ [StatusLine k r] ∧ t + r = now s) ∧
  (∀ i g out s', pool s !! i = Some g →
     exec c (GRun i (Exited 0 out)) s = Some s' →
     ∃ t d, g_start g = Some t ∧
            console s' = console s ++ [Completed (g_module g) d] ∧
            t + d = now s) ∧
  Forall (λ e, reported_time e ≤ now s) (console s).
Proof.
  intros Hs. destruct (clock_reachable c s Hs) as [Hpool Hreg _ Hcons].
  destruct (start_reachable c s Hs) as [Hfresh _].
  split; [|split; [|done]].
  - intros k t s' Hk Hex. unfold exec, visit_step in Hex.
    destruct (exited s); [done|]. unfold Time in *. rewrite Hk in Hex.
    repeat case_match; simplify_eq/=. eexists. split; [done|].
    specialize (Hreg k t Hk). simpl in Hreg. lia.
  - intros i g out s' Hi Hex. unfold exec, run_step in Hex.
    destruct (exited s); [done|].
    destruct (goroutine_at AtRun i s) as [g'|] eqn:Hat; [|done].
    apply goroutine_at_Some in Hat as [Hi' Hpc]. simplify_eq/=.
    destruct (launchable _ _); [|done]. simplify_eq/=.
    eapply Forall_lookup_1 in Hfresh; [|exact Hi].
    eapply Forall_lookup_1 in Hpool; [|exact Hi].
    destruct (g_start g) as [t|] eqn:Hstart;
      [|destruct Hfresh as [_ Hf]; specialize (Hf eq_refl); congruence].
    exists t, (now s - t). split; [done|]. split; [done|].
    specialize (Hpool t eq_refl). lia.
Qed.

Lemma elapsed_times_witness :
  console pslist_ran = console pslist_in_run ++ [Completed "pslist" 2] ∧
  0 + 2 = now pslist_in_run.
Proof.
  assert (reachable one_job pslist_in_run) as Hs
    by (by eapply state_after_reachable; vm_compute).
  destruct (elapsed_times one_job pslist_in_run Hs) as (_ & Hrun & _).
  destruct (Hrun 0 {| g_module := "pslist"; g_pc := AtRun; g_start := Some 0 |}
              "pid,name" pslist_ran) as (t & d & Ht & Hconsole & Hsum);
    [by vm_compute..|].
  simpl in Ht. injection Ht as <-.
  assert (d = 2) as -> by (vm_compute in Hsum; lia).
  split; [exact Hconsole | exact Hsum].
Defined.
